(** * gplugins.klayout.plot_nets: the degree-2 reduction of a connectivity graph

    The development follows [src/gplugins/klayout/plot_nets.py].  The graph
    that [networkx_from_file] returns is a [networkx.Graph]: an undirected
    simple graph (self-loops allowed) stored as an insertion-ordered
    dictionary from node to an insertion-ordered dictionary of neighbours.
    Nodes are strings.  Node and edge attribute dictionaries are left out:
    the reduction neither reads nor writes them.

    Layout of the file:
    - [Nx]: the [networkx.Graph] methods that [plot_nets] calls, as
      functions on the adjacency structure, and the invariant [wf] that
      the library keeps;
    - [Reducer]: [_removal_condition], one pass of the [while] loop and the
      loop itself, on graph values;
    - [Py]: the same program on an object store, with object identity,
      exceptions and the calls on the rendering collaborators; the graph
      builder and the outcome of importing [pyvis] are parameters;
    - [Examples]: a few graphs and argument records;
    - facts about the operations, the link between [Py] and [Reducer],
      sample runs, and the theorems.

    The [while] loop takes a bound on its passes ([fuel]); that the node
    count is bound enough is proved, not assumed. *)

From stdpp Require Import base decidable option list strings relations.
From Stdlib Require Import Lia.

(** ** networkx.Graph *)

Module Nx.

(** [G._adj]: an ordered dict [node -> ordered dict of neighbours]. *)
Abbreviation Graph := (list (string * list string)).

(** [list(G)] / [G.nodes]: the keys in insertion order. *)
Definition nodes (G : Graph) : list string := G.*1.

(** [G.number_of_nodes()]. *)
Definition number_of_nodes (G : Graph) : nat := length G.

(** [list(G._adj[n])], and the empty list for a key that is missing. *)
Fixpoint adj (G : Graph) (n : string) : list string :=
  match G with
  | [] => []
  | (k, nbrs) :: G' => if decide (k = n) then nbrs else adj G' n
  end.

(** [G.degree[n]]: [len(nbrs) + (n in nbrs)], a self-loop counts twice. *)
Definition degree_of (n : string) (nbrs : list string) : nat :=
  length nbrs + (if decide (n ∈ nbrs) then 1 else 0).

Definition degree_at (G : Graph) (n : string) : nat := degree_of n (adj G n).

(** [G.degree], iterated: the pairs [(node, degree)] in node order. *)
Definition degree (G : Graph) : list (string * nat) :=
  map (λ kv, (kv.1, degree_of kv.1 kv.2)) G.

(** [G.edges(node)], iterated: [(node, nbr)] for each neighbour, in
    adjacency order; a self-loop yields [(node, node)]. *)
Definition edges (G : Graph) (node : string) : list (string * string) :=
  map (pair node) (adj G node).

(** [G.number_of_edges()]: half the degree sum. *)
Definition number_of_edges (G : Graph) : nat :=
  Nat.div2 (foldr (λ nd acc, nd.2 + acc) 0 (degree G)).

(** [if n not in G._node: G._adj[n] = {}]. *)
Definition add_node (G : Graph) (n : string) : Graph :=
  if decide (n ∈ nodes G) then G else G ++ [(n, [])].

(** [d[k] = ...] on an ordered dict of neighbours: a new key goes last, an
    existing key keeps its place. *)
Definition set_key (k : string) (nbrs : list string) : list string :=
  if decide (k ∈ nbrs) then nbrs else nbrs ++ [k].

(** [del d[k]]. *)
Definition del_key (k : string) (nbrs : list string) : list string :=
  filter (λ x, x ≠ k) nbrs.

(** Apply [f] to the neighbour dict stored under [n]. *)
Definition on_adj (f : list string → list string) (n : string) (G : Graph)
  : Graph :=
  map (λ kv, if decide (kv.1 = n) then (kv.1, f kv.2) else kv) G.

(** [G.add_edge(u, v)]: both ends become nodes when they are not yet, then
    [G._adj[u][v] = dd; G._adj[v][u] = dd]. *)
Definition add_edge (G : Graph) (u v : string) : Graph :=
  on_adj (set_key u) v (on_adj (set_key v) u (add_node (add_node G u) v)).

(** [G.add_edges_from(es)]: [add_edge] for each pair, in order. *)
Definition add_edges_from (G : Graph) (es : list (string * string)) : Graph :=
  foldl (λ g e, add_edge g e.1 e.2) G es.

(** [G.remove_node(n)] for a node of the graph:
    [nbrs = list(adj[n]); for u in nbrs: del adj[u][n]; del adj[n]].
    The [NetworkXError] for a missing node is raised in [Py.remove_node]. *)
Definition remove_node (G : Graph) (n : string) : Graph :=
  filter (λ kv, kv.1 ≠ n)
         (foldl (λ g u, on_adj (del_key n) u g) G (adj G n)).

(** [G.copy()]: a new graph, [add_nodes_from] the nodes in order, then
    [add_edges_from] every [(u, v)] of the adjacency, in order. *)
Definition adjacency_pairs (G : Graph) : list (string * string) :=
  G ≫= (λ kv, map (pair kv.1) kv.2).

Definition copy (G : Graph) : Graph :=
  add_edges_from (foldl add_node [] (nodes G)) (adjacency_pairs G).

(** The invariant every [networkx.Graph] satisfies: keys are unique, a
    neighbour dict has unique keys, every neighbour is a node, and the
    adjacency is symmetric. *)
Definition wf (G : Graph) : Prop :=
  NoDup (nodes G) ∧
  Forall (λ kv, NoDup kv.2 ∧
                Forall (λ v, v ∈ nodes G ∧ kv.1 ∈ adj G v) kv.2) G.

(** [G] has exactly the nodes [ns] and exactly the edges [es], each edge
    listed once, in either direction. *)
Definition has_shape (G : Graph) (ns : list string)
    (es : list (string * string)) : Prop :=
  wf G ∧ (∀ v, v ∈ nodes G ↔ v ∈ ns) ∧
  (∀ u v, v ∈ adj G u ↔ (u, v) ∈ es ∨ (v, u) ∈ es).

#[global] Instance wf_dec G : Decision (wf G).
Proof. unfold wf. apply _. Defined.

(** [v] can be reached from [u] along edges of [G]
    ([networkx.has_path(G, u, v)] for nodes of [G]). *)
Definition connected (G : Graph) : relation string :=
  rtc (λ x y, y ∈ adj G x).

End Nx.

Import Nx.

(** ** The reducer on graph values *)

Module Reducer.

(** Python [e in node] on [str]: [e] occurs in [node] as a contiguous
    substring (the empty string occurs in every string). *)
Fixpoint startswith (node e : string) : bool :=
  match e, node with
  | EmptyString, _ => true
  | String _ _, EmptyString => false
  | String c e', String d node' =>
      if decide (c = d) then startswith node' e' else false
  end.

Fixpoint substring_in (e node : string) : bool :=
  startswith node e ||
  match node with
  | EmptyString => false
  | String _ node' => substring_in e node'
  end.

(** [any(e in node for e in nodes_to_reduce)]. *)
Definition matches (nodes_to_reduce : list string) (node : string) : bool :=
  existsb (λ e, substring_in e node) nodes_to_reduce.

(** [_removal_condition], a closure over [nodes_to_reduce]. *)
Definition _removal_condition (nodes_to_reduce : list string)
    (node : string) (degree : nat) : bool :=
  bool_decide (degree = 2) && matches nodes_to_reduce node.

(** [list(combinations(l, r=2))]: the pairs [(l[i], l[j])], [i < j], in
    lexicographic index order. *)
Fixpoint combinations_r2 {A} (l : list A) : list (A * A) :=
  match l with
  | [] => []
  | x :: t => map (pair x) t ++ combinations_r2 t
  end.

(** The condition of the [while]:
    [any(_removal_condition(node, degree) for node, degree in G.degree)]. *)
Definition any_removal (nodes_to_reduce : list string) (G : Graph) : bool :=
  existsb (λ nd, _removal_condition nodes_to_reduce nd.1 nd.2) (degree G).

(** The node the [for] of lines 45-52 stops at: the first one, in node
    order, that satisfies [_removal_condition]; [None] when there is none. *)
Definition selected (nodes_to_reduce : list string) (G : Graph)
  : option string :=
  fst <$> find (λ nd, _removal_condition nodes_to_reduce nd.1 nd.2) (degree G).

(** Lines 47-51, for the node the [for] stopped at: the neighbours are
    read from [G_connectivity], the edges are added to and the node is
    removed from [G_connectivity_tmp]. *)
Definition rewire (G_connectivity G_connectivity_tmp : Graph)
    (node : string) : Graph :=
  let connected_to_node := (edges G_connectivity node).*2 in
  let node_pairs_to_connect := combinations_r2 connected_to_node in
  remove_node
    (foldl (λ g pair, add_edge g pair.1 pair.2)
           G_connectivity_tmp node_pairs_to_connect)
    node.

(** The [for node, degree in G_connectivity.degree] with its [break]. *)
Fixpoint scan (nodes_to_reduce : list string)
    (G_connectivity G_connectivity_tmp : Graph)
    (view : list (string * nat)) : Graph :=
  match view with
  | [] => G_connectivity_tmp
  | (node, degree) :: view' =>
      if _removal_condition nodes_to_reduce node degree
      then rewire G_connectivity G_connectivity_tmp node
      else scan nodes_to_reduce G_connectivity G_connectivity_tmp view'
  end.

(** One pass through the body of the [while] (lines 44-53): the value bound
    to [G_connectivity] afterwards. *)
Definition iteration (nodes_to_reduce : list string) (G_connectivity : Graph)
  : Graph :=
  let G_connectivity_tmp := copy G_connectivity in
  scan nodes_to_reduce G_connectivity G_connectivity_tmp
       (degree G_connectivity).

(** The [while] loop (lines 41-53).  [fuel] bounds the number of passes
    through the body; [None] means the bound was hit with the condition
    still true.  The result carries the number of passes made. *)
Fixpoint reduction_loop (fuel : nat) (nodes_to_reduce : list string)
    (G_connectivity : Graph) : option (nat * Graph) :=
  if any_removal nodes_to_reduce G_connectivity then
    match fuel with
    | 0 => None
    | S fuel' =>
        '(k, G) ← reduction_loop fuel' nodes_to_reduce
                     (iteration nodes_to_reduce G_connectivity);
        Some (S k, G)
    end
  else Some (0, G_connectivity).

(** The graphs bound to [G_connectivity] at the head of the loop, one per
    evaluation of the condition, at most [S fuel] of them. *)
Fixpoint snapshots (fuel : nat) (nodes_to_reduce : list string)
    (G_connectivity : Graph) : list Graph :=
  G_connectivity ::
  (if any_removal nodes_to_reduce G_connectivity then
     match fuel with
     | 0 => []
     | S fuel' => snapshots fuel' nodes_to_reduce
                    (iteration nodes_to_reduce G_connectivity)
     end
   else []).

(** The nodes whose label matches the filter, in node order. *)
Definition matching (nodes_to_reduce : list string) (G : Graph)
  : list string :=
  filter (λ n, matches nodes_to_reduce n = true) (nodes G).

End Reducer.

(** ** The program on an object store *)

Module Py.

(** Objects are graphs; a reference is an index in the store.  A new object
    gets the next index, and nothing is ever freed. *)
Abbreviation Ref := nat.
Abbreviation Heap := (list Graph).

(** An exception class, given by its method resolution order: its own
    name first, then the names of the classes it derives from.  What
    [except C] and [isinstance(e, C)] test is that the name of [C] is in
    that list, so a subclass of [C] passes as well as [C] itself. *)
Abbreviation ExnClass := (list string).

Definition subclass (name : string) (base : ExnClass) : ExnClass :=
  name :: base.

Definition Exception : ExnClass := ["Exception"; "BaseException"; "object"].
Definition Warning : ExnClass := subclass "Warning" Exception.
Definition UserWarning : ExnClass := subclass "UserWarning" Warning.
Definition ImportError : ExnClass := subclass "ImportError" Exception.
Definition ModuleNotFoundError : ExnClass :=
  subclass "ModuleNotFoundError" ImportError.
Definition NetworkXError : ExnClass :=
  subclass "NetworkXError" (subclass "NetworkXException" Exception).
Definition ReferenceError : ExnClass := subclass "ReferenceError" Exception.

(** A class derived from [Exception] and from nothing else. *)
Definition OtherError (name : string) : ExnClass := subclass name Exception.

(** An exception: its class, its message, and for [raise ... from e] its
    [__cause__]. *)
Inductive Exn :=
  | Exc (cls : ExnClass) (msg : string)
  | ExcFrom (cls : ExnClass) (msg : string) (cause : Exn).

Definition exn_class (e : Exn) : ExnClass :=
  match e with Exc c _ | ExcFrom c _ _ => c end.
Definition exn_msg (e : Exn) : string :=
  match e with Exc _ m | ExcFrom _ m _ => m end.
Definition exn_cause (e : Exn) : option Exn :=
  match e with Exc _ _ => None | ExcFrom _ _ c => Some c end.

(** [issubclass(c, Warning)] and [issubclass(c, ModuleNotFoundError)]:
    the class itself or any class derived from it. *)
Definition is_Warning (c : ExnClass) : bool :=
  bool_decide ("Warning" ∈ c).
Definition is_ModuleNotFoundError (c : ExnClass) : bool :=
  bool_decide ("ModuleNotFoundError" ∈ c).

Inductive Res (A : Type) :=
  | Ret (a : A) (h : Heap)
  | Raise (e : Exn) (h : Heap)
  | OutOfFuel.
Arguments Ret {A} a h.
Arguments Raise {A} e h.
Arguments OutOfFuel {A}.

Definition M (A : Type) : Type := Heap → Res A.

#[global] Instance M_ret : MRet M := λ A a h, Ret a h.
#[global] Instance M_bind : MBind M := λ A B f m h,
  match m h with
  | Ret a h' => f a h'
  | Raise e h' => Raise e h'
  | OutOfFuel => OutOfFuel
  end.

Definition ret {A} (a : A) : M A := mret a.
Definition raise {A} (e : Exn) : M A := λ h, Raise e h.
Definition diverge {A} : M A := λ _, OutOfFuel.

Definition dangling (r : Ref) : Exn :=
  Exc ReferenceError "no such object".

(** Read the object behind a reference. *)
Definition deref (r : Ref) : M Graph :=
  λ h, match h !! r with
       | Some G => Ret G h
       | None => Raise (dangling r) h
       end.

(** Mutate the object behind a reference in place. *)
Definition mutate (r : Ref) (f : Graph → Graph) : M unit :=
  λ h, match h !! r with
       | Some G => Ret () (<[r := f G]> h)
       | None => Raise (dangling r) h
       end.

(** [G.copy()]: a new object. *)
Definition copy (r : Ref) : M Ref :=
  λ h, match h !! r with
       | Some G => Ret (length h) (h ++ [Nx.copy G])
       | None => Raise (dangling r) h
       end.

(** [G.degree] and [G.edges(node)], read off the object. *)
Definition degree (r : Ref) : M (list (string * nat)) :=
  G ← deref r; ret (Nx.degree G).
Definition edges (r : Ref) (node : string) : M (list (string * string)) :=
  G ← deref r; ret (Nx.edges G node).

(** [G.add_edge(u, v)], in place. *)
Definition add_edge (r : Ref) (u v : string) : M unit :=
  mutate r (λ G, Nx.add_edge G u v).

(** [G.remove_node(n)], in place; [NetworkXError] when [n] is no node. *)
Definition remove_node (r : Ref) (n : string) : M unit :=
  G ← deref r;
  if decide (n ∈ nodes G) then mutate r (λ G, Nx.remove_node G n)
  else raise (Exc NetworkXError "The node is not in the graph.").

Fixpoint for_each {A} (body : A → M unit) (l : list A) : M unit :=
  match l with
  | [] => ret ()
  | x :: l' => body x;; for_each body l'
  end.

(** The arguments of [plot_nets]; [locals()] on line 34 holds exactly
    these. *)
Record Args := {
  filepath : string;
  fully_connected : bool;
  interactive : bool;
  include_labels : bool;
  only_most_complex : bool;
  nodes_to_reduce : option (list string);
}.

(** What the rendering collaborators are asked to show. *)
Inductive Display :=
  | Html (select_menu filter_menu show_buttons : bool)
         (graph : Ref) (name : string)
  | Figure (figsize : nat * nat) (graph : Ref) (with_labels : bool)
           (node_size : nat) (node_color : string) (font_size : nat)
           (title : string).

Definition display_graph (d : Display) : Ref :=
  match d with
  | Html _ _ _ graph _ => graph
  | Figure _ graph _ _ _ _ _ => graph
  end.

(** The outcome of [from pyvis.network import Network]. *)
Inductive Import := Imported | Failed (e : Exn).

(** Lines 45-52. *)
Fixpoint scan (nodes_to_reduce : list string)
    (G_connectivity G_connectivity_tmp : Ref)
    (view : list (string * nat)) : M unit :=
  match view with
  | [] => ret ()
  | (node, degree) :: view' =>
      if Reducer._removal_condition nodes_to_reduce node degree then
        es ← edges G_connectivity node;
        let connected_to_node := es.*2 in
        let node_pairs_to_connect :=
          Reducer.combinations_r2 connected_to_node in
        for_each (λ pair, add_edge G_connectivity_tmp pair.1 pair.2)
                 node_pairs_to_connect;;
        remove_node G_connectivity_tmp node
      else scan nodes_to_reduce G_connectivity G_connectivity_tmp view'
  end.

(** Lines 44-53: the reference bound to [G_connectivity] afterwards. *)
Definition iteration (nodes_to_reduce : list string) (G_connectivity : Ref)
  : M Ref :=
  G_connectivity_tmp ← copy G_connectivity;
  view ← degree G_connectivity;
  scan nodes_to_reduce G_connectivity G_connectivity_tmp view;;
  ret G_connectivity_tmp.

(** Lines 41-53; out of fuel is its own outcome, not an exception. *)
Fixpoint reduction_loop (fuel : nat) (nodes_to_reduce : list string)
    (G_connectivity : Ref) : M Ref :=
  view ← degree G_connectivity;
  if existsb (λ nd, Reducer._removal_condition nodes_to_reduce nd.1 nd.2) view
  then
    match fuel with
    | 0 => diverge
    | S fuel' =>
        G_connectivity ← iteration nodes_to_reduce G_connectivity;
        reduction_loop fuel' nodes_to_reduce G_connectivity
    end
  else ret G_connectivity.

(** The reference [G_connectivity] is bound to after [k] passes that began
    with it bound to [r] in a store of [len] objects: [r] itself when no
    pass ran, else the copy made by the last pass. *)
Definition result_ref (r : Ref) (len k : nat) : Ref :=
  match k with
  | 0 => r
  | S k' => len + k'
  end.

(** [if nodes_to_reduce:] on an optional collection: [None] and the empty
    collection are false. *)
Definition truthy (c : option (list string)) : bool :=
  match c with
  | None | Some [] => false
  | Some (_ :: _) => true
  end.

Definition pyvis_hint : string :=
  "You need to `pip install pyvis<=0.3.1` or `gplugins[klayout]`".

Section plot_nets.

(** The collaborators and the environment: the graph builder imported on
    line 8, whether [pyvis] can be imported, and a bound on the passes of
    the [while] loop. *)
Variable networkx_from_file : Args → M Ref.
Variable pyvis : Import.
Variable fuel : nat.

(** Lines 56-81. *)
Definition render (interactive : bool) (G_connectivity : Ref) : M Display :=
  if interactive then
    match pyvis with
    | Failed e =>
        if is_ModuleNotFoundError (exn_class e)
        then raise (ExcFrom UserWarning pyvis_hint e)
        else raise e
    | Imported =>
        ret (Html true true true G_connectivity "connectivity.html")
    end
  else
    ret (Figure (8, 6) G_connectivity true 2000 "lightpink" 12
                "Connectivity").

Definition plot_nets (args : Args) : M Display :=
  G_connectivity ← networkx_from_file args;
  G_connectivity ←
    (if truthy (nodes_to_reduce args)
     then reduction_loop fuel (default [] (nodes_to_reduce args))
                         G_connectivity
     else ret G_connectivity);
  render (interactive args) G_connectivity.

End plot_nets.

End Py.

Import Reducer.

(** ** Example graphs *)

Module Examples.

(** The chain [A - X - Y - B]; [X] and [Y] are waveguides. *)
Definition chain : Graph :=
  add_edges_from []
    [("A", "waveguide_X"); ("waveguide_X", "waveguide_Y");
     ("waveguide_Y", "B")].

(** A triangle of two waveguides and a pad: every node has degree 2. *)
Definition triangle : Graph :=
  add_edges_from []
    [("waveguide_m", "waveguide_n"); ("waveguide_n", "pad");
     ("pad", "waveguide_m")].

(** A waveguide whose only edge is a self-loop, next to an edge. *)
Definition looped : Graph :=
  add_edges_from []
    [("waveguide_o", "waveguide_o"); ("A", "B")].

(** A waveguide of degree 3 that a neighbour's removal brings to degree 2:
    [waveguide_m] sits on the edge [waveguide_v - y]. *)
Definition kite : Graph :=
  add_edges_from []
    [("waveguide_m", "waveguide_v"); ("waveguide_m", "y");
     ("waveguide_v", "y"); ("waveguide_v", "z")].

(** Three pads in a row: the middle one has degree 2, no label contains
    "waveguide". *)
Definition pads : Graph :=
  add_edges_from [] [("pad_1", "pad_2"); ("pad_2", "pad_3")].

(** Arguments and collaborators for [plot_nets]: a builder that returns
    the object at reference 0, and the error of a missing [pyvis]. *)
Definition builder : Py.Args → Py.M Py.Ref := λ _, Py.ret 0.

Definition args_interactive : Py.Args :=
  Py.Build_Args "pads.l2n" false true true false (Some ["waveguide"]).

Definition args_empty : Py.Args :=
  Py.Build_Args "pads.l2n" false false true false (Some []).

Definition no_pyvis : Py.Exn :=
  Py.Exc Py.ModuleNotFoundError "No module named 'pyvis'".

(** [importlib.metadata.PackageNotFoundError], a subclass of
    [ModuleNotFoundError]. *)
Definition package_not_found : Py.Exn :=
  Py.Exc (Py.subclass "PackageNotFoundError" Py.ModuleNotFoundError)
         "No package metadata was found for pyvis".

(** Two waveguides, each between two pads of its own. *)
Definition two_links : Graph :=
  add_edges_from []
    [("p", "waveguide_1"); ("waveguide_1", "q");
     ("r", "waveguide_2"); ("waveguide_2", "s")].

End Examples.

(** ** Facts about the graph operations *)

Section nx_facts.
Implicit Types (G : Graph) (u v x y n : string) (nbrs : list string).

Lemma adj_not_node G n : n ∉ nodes G → adj G n = [].
Proof.
  induction G as [|[k nbrs] G IH]; simpl; [done|].
  rewrite not_elem_of_cons. intros [Hne Hn].
  case_decide; [congruence|auto].
Qed.

Lemma adj_elem_node G u v : v ∈ adj G u → u ∈ nodes G.
Proof.
  intros H. destruct (decide (u ∈ nodes G)) as [|Hn]; [done|].
  rewrite (adj_not_node _ _ Hn) in H. by apply elem_of_nil in H.
Qed.

Lemma adj_lookup G k nbrs : NoDup (nodes G) → (k, nbrs) ∈ G → adj G k = nbrs.
Proof.
  induction G as [|[k' nbrs'] G IH]; simpl; intros Hnd Hin.
  - by apply elem_of_nil in Hin.
  - apply NoDup_cons in Hnd as [Hk Hnd].
    apply elem_of_cons in Hin as [Heq|Hin].
    + inversion Heq; subst. by rewrite decide_True.
    + case_decide; [|auto]. subst. destruct Hk.
      apply list_elem_of_fmap. by exists (k, nbrs).
Qed.

Lemma adj_elem_of G n : n ∈ nodes G → (n, adj G n) ∈ G.
Proof.
  induction G as [|[k nbrs] G IH]; simpl; intros Hin.
  - by apply elem_of_nil in Hin.
  - case_decide; subst; [left|right].
    apply IH. apply elem_of_cons in Hin as [|]; [congruence|done].
Qed.

(** The invariant, node by node. *)
Lemma wf_alt G :
  wf G ↔
  NoDup (nodes G) ∧ (∀ n, NoDup (adj G n)) ∧
  (∀ u v, v ∈ adj G u → v ∈ nodes G ∧ u ∈ adj G v).
Proof.
  unfold wf. split.
  - intros [Hnd Hall]. rewrite Forall_forall in Hall.
    split_and!; [done|..].
    + intros n. destruct (decide (n ∈ nodes G)) as [Hn|Hn].
      * by apply (Hall _ (adj_elem_of _ _ Hn)).
      * rewrite adj_not_node; [constructor|done].
    + intros u v Hv.
      destruct (Hall _ (adj_elem_of _ _ (adj_elem_node _ _ _ Hv))) as [_ H].
      rewrite Forall_forall in H. by apply H.
  - intros (Hnd & Hadj & Hsym). split; [done|].
    apply Forall_forall. intros [k nbrs] Hin. simpl.
    pose proof (adj_lookup _ _ _ Hnd Hin) as <-.
    split; [done|]. apply Forall_forall. auto.
Qed.

Lemma wf_NoDup_nodes G : wf G → NoDup (nodes G).
Proof. by intros [? _]. Qed.

Lemma wf_NoDup_adj G n : wf G → NoDup (adj G n).
Proof. intros H. by apply wf_alt in H as (_ & ? & _). Qed.

Lemma wf_sym G u v : wf G → v ∈ adj G u → u ∈ adj G v.
Proof. intros H. apply wf_alt in H as (_ & _ & H). apply H. Qed.

Lemma wf_closed G u v : wf G → v ∈ adj G u → v ∈ nodes G.
Proof. intros H. apply wf_alt in H as (_ & _ & H). apply H. Qed.

(** *** [on_adj] *)

Lemma nodes_on_adj f n G : nodes (on_adj f n G) = nodes G.
Proof.
  induction G as [|[k nbrs] G IH]; [done|].
  unfold nodes, on_adj in *. cbn [map fmap list_fmap]. f_equal; [|exact IH].
  by case_decide.
Qed.

Lemma adj_on_adj_ne f n G x : x ≠ n → adj (on_adj f n G) x = adj G x.
Proof.
  intros Hx. induction G as [|[k nbrs] G IH]; simpl; [done|].
  repeat (case_decide; simpl in *; subst); try done.
Qed.

Lemma adj_on_adj_eq f n G :
  n ∈ nodes G → adj (on_adj f n G) n = f (adj G n).
Proof.
  induction G as [|[k nbrs] G IH]; simpl; intros Hin.
  - by apply elem_of_nil in Hin.
  - repeat (case_decide; simpl in *; subst); try done.
    apply IH. apply elem_of_cons in Hin as [|]; [congruence|done].
Qed.

Lemma adj_on_adj_nil f n G : f [] = [] → adj (on_adj f n G) n = f (adj G n).
Proof.
  intros Hf. destruct (decide (n ∈ nodes G)) as [Hn|Hn].
  - by apply adj_on_adj_eq.
  - rewrite !adj_not_node; [done..|by rewrite nodes_on_adj].
Qed.

(** *** [add_node] *)

Lemma nodes_add_node_in G n : n ∈ nodes G → add_node G n = G.
Proof. intros. unfold add_node. by rewrite decide_True. Qed.

Lemma nodes_add_node_notin G n :
  n ∉ nodes G → nodes (add_node G n) = nodes G ++ [n].
Proof.
  intros. unfold add_node. rewrite decide_False; [|done].
  unfold nodes. by rewrite fmap_app.
Qed.

Lemma elem_of_nodes_add_node G n x :
  x ∈ nodes (add_node G n) ↔ x ∈ nodes G ∨ x = n.
Proof.
  destruct (decide (n ∈ nodes G)).
  - rewrite nodes_add_node_in; [|done]. split; [auto|]. by intros [?| ->].
  - rewrite nodes_add_node_notin; [|done].
    rewrite elem_of_app, list_elem_of_singleton. done.
Qed.

Lemma adj_app G G' x :
  adj (G ++ G') x = if decide (x ∈ nodes G) then adj G x else adj G' x.
Proof.
  induction G as [|[k nbrs] G IH]; simpl; [done|].
  change (nodes ((k, nbrs) :: G)) with (k :: nodes G).
  destruct (decide (k = x)) as [->|Hne].
  - rewrite decide_True; [done|left].
  - rewrite IH. destruct (decide (x ∈ nodes G)).
    + rewrite decide_True; [done|by right].
    + rewrite decide_False; [done|]. rewrite not_elem_of_cons. done.
Qed.

Lemma adj_add_node G n x : adj (add_node G n) x = adj G x.
Proof.
  unfold add_node. case_decide; [done|].
  rewrite adj_app. case_decide; [done|].
  simpl. rewrite adj_not_node; [|done]. by case_decide.
Qed.


(** *** [add_edge] *)

Lemma elem_of_set_key k nbrs y : y ∈ set_key k nbrs ↔ y ∈ nbrs ∨ y = k.
Proof.
  unfold set_key. case_decide.
  - split; [auto|]. by intros [?| ->].
  - by rewrite elem_of_app, list_elem_of_singleton.
Qed.

Lemma NoDup_set_key k nbrs : NoDup nbrs → NoDup (set_key k nbrs).
Proof.
  intros Hnd. unfold set_key. case_decide; [done|].
  apply NoDup_app. split_and!; [done| |apply NoDup_singleton].
  intros x Hx ->%list_elem_of_singleton. done.
Qed.

Lemma nodes_add_edge G u v :
  nodes (add_edge G u v) = nodes (add_node (add_node G u) v).
Proof. unfold add_edge. by rewrite !nodes_on_adj. Qed.

Lemma nodes_add_edge_in G u v :
  u ∈ nodes G → v ∈ nodes G → nodes (add_edge G u v) = nodes G.
Proof.
  intros Hu Hv. rewrite nodes_add_edge.
  by rewrite (nodes_add_node_in G u), (nodes_add_node_in G v).
Qed.

Lemma elem_of_nodes_add_edge G u v x :
  x ∈ nodes (add_edge G u v) ↔ x ∈ nodes G ∨ x = u ∨ x = v.
Proof.
  rewrite nodes_add_edge, !elem_of_nodes_add_node. tauto.
Qed.

Lemma NoDup_nodes_add_node G n : NoDup (nodes G) → NoDup (nodes (add_node G n)).
Proof.
  intros Hnd. destruct (decide (n ∈ nodes G)).
  - by rewrite nodes_add_node_in.
  - rewrite nodes_add_node_notin; [|done].
    apply NoDup_app. split_and!; [done| |apply NoDup_singleton].
    intros x Hx ->%list_elem_of_singleton. done.
Qed.

Lemma NoDup_nodes_add_edge G u v :
  NoDup (nodes G) → NoDup (nodes (add_edge G u v)).
Proof.
  intros. rewrite nodes_add_edge. by do 2 apply NoDup_nodes_add_node.
Qed.

Lemma adj_add_edge G u v x :
  adj (add_edge G u v) x =
  let at_u := if decide (x = u) then set_key v (adj G x) else adj G x in
  if decide (x = v) then set_key u at_u else at_u.
Proof.
  unfold add_edge. set (G2 := add_node (add_node G u) v).
  assert (Hu : u ∈ nodes G2).
  { unfold G2. rewrite !elem_of_nodes_add_node. auto. }
  assert (Hv : v ∈ nodes G2).
  { unfold G2. rewrite !elem_of_nodes_add_node. auto. }
  assert (Hadj : ∀ z, adj G2 z = adj G z).
  { intros z. unfold G2. by rewrite !adj_add_node. }
  assert (Hin : ∀ z, adj (on_adj (set_key v) u G2) z =
                     if decide (z = u) then set_key v (adj G z) else adj G z).
  { intros z. case_decide as Hz.
    - subst z. by rewrite adj_on_adj_eq, Hadj.
    - by rewrite adj_on_adj_ne, Hadj. }
  simpl. destruct (decide (x = v)) as [->|Hxv].
  - rewrite adj_on_adj_eq; [|by rewrite nodes_on_adj]. by rewrite Hin.
  - rewrite adj_on_adj_ne; [|done]. by rewrite Hin.
Qed.

Lemma elem_of_adj_add_edge G u v x y :
  y ∈ adj (add_edge G u v) x ↔
  y ∈ adj G x ∨ (x = u ∧ y = v) ∨ (x = v ∧ y = u).
Proof.
  rewrite adj_add_edge. simpl.
  repeat case_decide; rewrite ?elem_of_set_key; subst;
    intuition (subst; auto; congruence).
Qed.

Lemma NoDup_adj_add_edge G u v x :
  NoDup (adj G x) → NoDup (adj (add_edge G u v) x).
Proof.
  intros Hnd. rewrite adj_add_edge. simpl.
  repeat case_decide; repeat apply NoDup_set_key; done.
Qed.

Lemma wf_add_edge G u v : wf G → wf (add_edge G u v).
Proof.
  rewrite !wf_alt. intros (Hnd & Hadj & Hsym). split_and!.
  - by apply NoDup_nodes_add_edge.
  - intros n. by apply NoDup_adj_add_edge.
  - intros x y. rewrite !elem_of_adj_add_edge, elem_of_nodes_add_edge.
    intros [Hxy|[[-> ->]|[-> ->]]]; [|by auto..].
    destruct (Hsym _ _ Hxy). auto.
Qed.

(** *** [add_edges_from] *)

Lemma add_edges_from_cons G e es :
  add_edges_from G (e :: es) = add_edges_from (add_edge G e.1 e.2) es.
Proof. done. Qed.

Lemma elem_of_nodes_add_edges_from G es x :
  x ∈ nodes (add_edges_from G es) ↔
  x ∈ nodes G ∨ ∃ e, e ∈ es ∧ (x = e.1 ∨ x = e.2).
Proof.
  revert G. induction es as [|e es IH]; intros G.
  - simpl. split; [auto|]. intros [?|(e & []%elem_of_nil & _)]. done.
  - rewrite add_edges_from_cons, IH, elem_of_nodes_add_edge. split.
    + intros [[?|He]|(e' & ? & ?)]; [by left|..].
      * right. exists e. split; [left|done].
      * right. exists e'. split; [by right|done].
    + intros [?|(e' & [->|?]%elem_of_cons & ?)]; [by auto..|].
      right. by exists e'.
Qed.

Lemma nodes_add_edges_from_in G es :
  (∀ e, e ∈ es → e.1 ∈ nodes G ∧ e.2 ∈ nodes G) →
  nodes (add_edges_from G es) = nodes G.
Proof.
  revert G. induction es as [|e es IH]; intros G Hes; [done|].
  destruct (Hes e) as [H1 H2]; [left|].
  rewrite add_edges_from_cons, IH; [by apply nodes_add_edge_in|].
  intros e' He'. rewrite nodes_add_edge_in; [|done..].
  apply Hes. by right.
Qed.

Lemma elem_of_adj_add_edges_from G es x y :
  y ∈ adj (add_edges_from G es) x ↔
  y ∈ adj G x ∨ (x, y) ∈ es ∨ (y, x) ∈ es.
Proof.
  revert G. induction es as [|[u v] es IH]; intros G.
  - simpl. rewrite !elem_of_nil. tauto.
  - rewrite add_edges_from_cons, IH, elem_of_adj_add_edge, !elem_of_cons.
    simpl. split.
    + intros [[?|[[-> ->]|[-> ->]]]|[?|?]]; auto.
    + intros [?|[[[= -> ->]|?]|[[= -> ->]|?]]]; auto.
Qed.

Lemma NoDup_adj_add_edges_from G es x :
  NoDup (adj G x) → NoDup (adj (add_edges_from G es) x).
Proof.
  revert G. induction es as [|e es IH]; intros G Hnd; [done|].
  rewrite add_edges_from_cons. by apply IH, NoDup_adj_add_edge.
Qed.

Lemma wf_add_edges_from G es : wf G → wf (add_edges_from G es).
Proof.
  revert G. induction es as [|e es IH]; intros G Hwf; [done|].
  rewrite add_edges_from_cons. by apply IH, wf_add_edge.
Qed.

(** *** [remove_node] *)

Lemma nodes_filter_key G n :
  nodes (filter (λ kv, kv.1 ≠ n) G) = filter (λ x, x ≠ n) (nodes G).
Proof.
  induction G as [|[k nbrs] G IH]; [done|].
  change (nodes ((k, nbrs) :: G)) with (k :: nodes G).
  destruct (decide (k = n)) as [->|Hk].
  - rewrite (filter_cons_False (λ x, x ≠ n)) by (intros ?; done).
    rewrite (filter_cons_False (λ kv, kv.1 ≠ n)) by (intros ?; done).
    exact IH.
  - rewrite (filter_cons_True (λ x, x ≠ n)) by done.
    rewrite (filter_cons_True (λ kv, kv.1 ≠ n)) by done.
    unfold nodes in *. cbn [fmap list_fmap]. by f_equal.
Qed.

Lemma adj_filter_key G n x :
  adj (filter (λ kv, kv.1 ≠ n) G) x = if decide (x = n) then [] else adj G x.
Proof.
  induction G as [|[k nbrs] G IH].
  - by case_decide.
  - rewrite filter_cons. simpl.
    destruct (decide (k ≠ n)) as [Hk|Hk]; simpl.
    + destruct (decide (k = x)) as [->|Hkx].
      * by rewrite decide_False.
      * done.
    + apply dec_stable in Hk. subst k. rewrite IH.
      destruct (decide (x = n)) as [->|Hx]; [done|].
      by rewrite decide_False.
Qed.

Lemma nodes_foldl_on_adj f G l :
  nodes (foldl (λ g u, on_adj f u g) G l) = nodes G.
Proof.
  revert G. induction l as [|a l IH]; intros G; [done|].
  simpl. by rewrite IH, nodes_on_adj.
Qed.

Lemma del_key_idemp n nbrs : del_key n (del_key n nbrs) = del_key n nbrs.
Proof. unfold del_key. rewrite list_filter_filter. apply list_filter_iff. tauto. Qed.

Lemma del_key_notin n nbrs : n ∉ nbrs → del_key n nbrs = nbrs.
Proof.
  intros Hn. unfold del_key. induction nbrs as [|a l IH]; [done|].
  apply not_elem_of_cons in Hn as [Hne Hn].
  rewrite filter_cons, decide_True; [|done]. by rewrite IH.
Qed.

Lemma elem_of_del_key n nbrs y : y ∈ del_key n nbrs ↔ y ∈ nbrs ∧ y ≠ n.
Proof. unfold del_key. rewrite list_elem_of_filter. tauto. Qed.

Lemma adj_foldl_del_key n G l x :
  adj (foldl (λ g u, on_adj (del_key n) u g) G l) x =
  if decide (x ∈ l) then del_key n (adj G x) else adj G x.
Proof.
  revert G. induction l as [|a l IH]; intros G.
  - by rewrite decide_False by apply not_elem_of_nil.
  - simpl. rewrite IH.
    assert (Ha : adj (on_adj (del_key n) a G) x =
                 if decide (x = a) then del_key n (adj G x) else adj G x).
    { destruct (decide (x = a)) as [->|Hxa].
      - by apply adj_on_adj_nil.
      - by apply adj_on_adj_ne. }
    rewrite Ha. destruct (decide (x = a)) as [->|Hxa].
    + rewrite (decide_True (P := a ∈ a :: l)) by left.
      rewrite del_key_idemp. by destruct (decide (a ∈ l)).
    + destruct (decide (x ∈ l)).
      * rewrite decide_True; [done|by right].
      * rewrite decide_False; [done|]. by apply not_elem_of_cons.
Qed.

Lemma nodes_remove_node G n :
  nodes (remove_node G n) = filter (λ x, x ≠ n) (nodes G).
Proof.
  unfold remove_node. by rewrite nodes_filter_key, nodes_foldl_on_adj.
Qed.

Lemma adj_remove_node G n x :
  wf G →
  adj (remove_node G n) x = if decide (x = n) then [] else del_key n (adj G x).
Proof.
  intros Hwf. unfold remove_node.
  rewrite adj_filter_key, adj_foldl_del_key.
  case_decide; [done|]. case_decide as Hx; [done|].
  symmetry. apply del_key_notin. intros Hn. apply Hx.
  by apply wf_sym.
Qed.

Lemma elem_of_adj_remove_node G n x y :
  wf G → y ∈ adj (remove_node G n) x ↔ y ∈ adj G x ∧ x ≠ n ∧ y ≠ n.
Proof.
  intros Hwf. rewrite adj_remove_node by done. case_decide.
  - rewrite elem_of_nil. tauto.
  - rewrite elem_of_del_key. tauto.
Qed.

Lemma wf_remove_node G n : wf G → wf (remove_node G n).
Proof.
  intros Hwf. apply wf_alt. split_and!.
  - rewrite nodes_remove_node. by apply NoDup_filter, wf_NoDup_nodes.
  - intros x. rewrite adj_remove_node by done. case_decide; [constructor|].
    by apply NoDup_filter, wf_NoDup_adj.
  - intros x y. rewrite !elem_of_adj_remove_node by done.
    rewrite nodes_remove_node, list_elem_of_filter.
    intros (Hxy & ? & ?). split_and!; [done|..|done|done].
    + by eapply wf_closed.
    + by apply wf_sym.
Qed.

Lemma filter_ne_length (l : list string) n :
  NoDup l → n ∈ l → S (length (filter (λ x, x ≠ n) l)) = length l.
Proof.
  induction l as [|a l IH]; intros Hnd Hin.
  - by apply elem_of_nil in Hin.
  - apply NoDup_cons in Hnd as [Ha Hnd]. rewrite filter_cons.
    destruct (decide (a ≠ n)) as [Hne|Heq]; simpl.
    + f_equal. apply IH; [done|].
      apply elem_of_cons in Hin as [|]; [congruence|done].
    + apply dec_stable in Heq. subst a. f_equal. f_equal.
      by apply (del_key_notin n l).
Qed.

Lemma number_of_nodes_nodes G : number_of_nodes G = length (nodes G).
Proof. unfold number_of_nodes, nodes. by rewrite length_fmap. Qed.

Lemma number_of_nodes_remove_node G n :
  NoDup (nodes G) → n ∈ nodes G →
  S (number_of_nodes (remove_node G n)) = number_of_nodes G.
Proof.
  intros. rewrite !number_of_nodes_nodes, nodes_remove_node.
  by apply filter_ne_length.
Qed.

(** *** [copy] *)

Lemma adj_foldl_add_node G l x : adj (foldl add_node G l) x = adj G x.
Proof.
  revert G. induction l as [|a l IH]; intros G; [done|].
  simpl. by rewrite IH, adj_add_node.
Qed.

Lemma nodes_foldl_add_node G l :
  NoDup (nodes G ++ l) → nodes (foldl add_node G l) = nodes G ++ l.
Proof.
  revert G. induction l as [|a l IH]; intros G Hnd.
  - by rewrite app_nil_r.
  - simpl. apply NoDup_app in Hnd as Hnd'. destruct Hnd' as (_ & Hdisj & _).
    assert (Ha : a ∉ nodes G).
    { intros Ha. apply (Hdisj _ Ha). left. }
    rewrite IH; rewrite nodes_add_node_notin by done;
      by rewrite <- app_assoc.
Qed.

Lemma elem_of_adjacency_pairs G x y :
  NoDup (nodes G) → (x, y) ∈ adjacency_pairs G ↔ y ∈ adj G x.
Proof.
  intros Hnd. unfold adjacency_pairs. rewrite list_elem_of_bind. split.
  - intros ([k nbrs] & Hxy & Hin). simpl in Hxy.
    apply list_elem_of_fmap in Hxy as (y' & [= -> ->] & Hy).
    by rewrite (adj_lookup _ _ _ Hnd Hin).
  - intros Hy. exists (x, adj G x). split.
    + simpl. by apply list_elem_of_fmap_2.
    + by eapply adj_elem_of, adj_elem_node.
Qed.

Lemma nodes_copy G : wf G → nodes (copy G) = nodes G.
Proof.
  intros Hwf. unfold copy.
  assert (Hn : nodes (foldl add_node [] (nodes G)) = nodes G).
  { by apply (nodes_foldl_add_node []), wf_NoDup_nodes. }
  rewrite nodes_add_edges_from_in; [done|].
  intros [u v] He. rewrite Hn. simpl.
  apply elem_of_adjacency_pairs in He; [|by apply wf_NoDup_nodes].
  split; [by eapply adj_elem_node|by eapply wf_closed].
Qed.

Lemma elem_of_adj_copy G x y : wf G → y ∈ adj (copy G) x ↔ y ∈ adj G x.
Proof.
  intros Hwf. unfold copy.
  rewrite elem_of_adj_add_edges_from, adj_foldl_add_node.
  rewrite !elem_of_adjacency_pairs by by apply wf_NoDup_nodes.
  simpl. rewrite elem_of_nil. split; [|auto].
  intros [[]|[?|?]]; [done|]. by apply wf_sym.
Qed.

Lemma NoDup_adj_copy G x : NoDup (adj (copy G) x).
Proof.
  unfold copy. apply NoDup_adj_add_edges_from.
  rewrite adj_foldl_add_node. constructor.
Qed.

Lemma wf_copy G : wf G → wf (copy G).
Proof.
  intros Hwf. apply wf_alt. split_and!.
  - rewrite nodes_copy by done. by apply wf_NoDup_nodes.
  - apply NoDup_adj_copy.
  - intros x y. rewrite !elem_of_adj_copy, nodes_copy by done.
    intros Hxy. split; [by eapply wf_closed|by apply wf_sym].
Qed.

End nx_facts.

(** ** Facts about one pass of the loop *)

Section reducer_facts.
Implicit Types (G H : Graph) (u v x y n : string) (nbrs ntr : list string).

Lemma elem_of_combinations_r2 {A} (l : list A) (a x y : A) :
  (x, y) ∈ combinations_r2 (a :: l) ↔
  (x = a ∧ y ∈ l) ∨ (x, y) ∈ combinations_r2 l.
Proof.
  simpl. rewrite elem_of_app, list_elem_of_fmap. split.
  - intros [(y' & [= -> ->] & Hy)|?]; auto.
  - intros [[-> Hy]|?]; [left; by exists y|by right].
Qed.

Lemma combinations_r2_elem {A} (l : list A) (x y : A) :
  (x, y) ∈ combinations_r2 l → x ∈ l ∧ y ∈ l.
Proof.
  induction l as [|a l IH]; [by intros []%elem_of_nil|].
  rewrite elem_of_combinations_r2, !elem_of_cons.
  intros [[-> ?]|[? ?]%IH]; auto.
Qed.

(** On a list without repetition, the pairs of [combinations(l, r=2)] are
    the unordered pairs of distinct elements. *)
Lemma combinations_r2_sym {A} (l : list A) (x y : A) :
  NoDup l →
  (x, y) ∈ combinations_r2 l ∨ (y, x) ∈ combinations_r2 l ↔
  x ∈ l ∧ y ∈ l ∧ x ≠ y.
Proof.
  induction l as [|a l IH]; intros Hnd.
  - simpl. rewrite !elem_of_nil. tauto.
  - apply NoDup_cons in Hnd as [Ha Hnd]. specialize (IH Hnd).
    rewrite !elem_of_combinations_r2, !elem_of_cons. split.
    + intros [[[-> Hy]|Hc]|[[-> Hx]|Hc]].
      * split_and!; [auto..|]. by intros ->.
      * assert (x ∈ l ∧ y ∈ l ∧ x ≠ y) as (?&?&?) by (apply IH; auto). auto.
      * split_and!; [auto..|]. by intros ->.
      * assert (x ∈ l ∧ y ∈ l ∧ x ≠ y) as (?&?&?) by (apply IH; auto). auto.
    + intros ([->|Hx] & [->|Hy] & Hne); [done|auto..|].
      destruct (proj2 IH) as [?|?]; auto.
Qed.

Lemma combinations_r2_distinct {A} (l : list A) (x y : A) :
  NoDup l → (x, y) ∈ combinations_r2 l → x ≠ y.
Proof.
  intros Hnd Hxy. eapply (combinations_r2_sym l x y); [done|]. by left.
Qed.

Lemma edges_snd G n : (edges G n).*2 = adj G n.
Proof.
  unfold edges. generalize (adj G n). intros l.
  induction l as [|a l IH]; [done|]. simpl. by f_equal.
Qed.

(** *** The [for] loop and the node it stops at *)

Lemma scan_find ntr G tmp view :
  scan ntr G tmp view =
  match find (λ nd, _removal_condition ntr nd.1 nd.2) view with
  | Some nd => rewire G tmp nd.1
  | None => tmp
  end.
Proof.
  induction view as [|[node deg] view IH]; [done|].
  simpl. by destruct (_removal_condition ntr node deg).
Qed.

Lemma iteration_selected ntr G n :
  selected ntr G = Some n → iteration ntr G = rewire G (copy G) n.
Proof.
  unfold selected, iteration. rewrite scan_find.
  destruct (find _ _) as [nd|]; [|done]. by intros [= <-].
Qed.

Lemma any_removal_selected ntr G :
  any_removal ntr G = true ↔ is_Some (selected ntr G).
Proof.
  unfold any_removal, selected. generalize (degree G). intros view.
  induction view as [|nd view IH]; simpl.
  - split; [done|]. by intros [? ?].
  - destruct (_removal_condition ntr nd.1 nd.2); simpl; [|done].
    split; [eauto|done].
Qed.

Lemma elem_of_degree G n d :
  NoDup (nodes G) → (n, d) ∈ degree G → n ∈ nodes G ∧ d = degree_at G n.
Proof.
  intros Hnd. unfold degree.
  intros ([k nbrs] & [= -> ->] & Hin)%list_elem_of_fmap. simpl.
  unfold degree_at. rewrite (adj_lookup _ _ _ Hnd Hin). split; [|done].
  apply list_elem_of_fmap. by exists (k, nbrs).
Qed.

Lemma degree_elem_of G n : n ∈ nodes G → (n, degree_at G n) ∈ degree G.
Proof.
  intros Hn. apply list_elem_of_fmap. exists (n, adj G n).
  split; [done|]. by apply adj_elem_of.
Qed.

Lemma removal_condition_true ntr n d :
  _removal_condition ntr n d = true ↔ d = 2 ∧ matches ntr n = true.
Proof.
  unfold _removal_condition. rewrite andb_true_iff, bool_decide_eq_true.
  done.
Qed.

Lemma selected_Some ntr G n :
  NoDup (nodes G) → selected ntr G = Some n →
  n ∈ nodes G ∧ degree_at G n = 2 ∧ matches ntr n = true.
Proof.
  intros Hnd. unfold selected.
  destruct (find _ _) as [[n' d]|] eqn:Hf; [|done]. intros [= <-].
  apply find_some in Hf as [Hin Hc]. apply list_elem_of_In in Hin.
  apply elem_of_degree in Hin as [? ->]; [|done].
  apply removal_condition_true in Hc as [? ?]. done.
Qed.

Lemma any_removal_true ntr G n :
  n ∈ nodes G → degree_at G n = 2 → matches ntr n = true →
  any_removal ntr G = true.
Proof.
  intros Hn Hd Hm. unfold any_removal. apply existsb_exists.
  exists (n, degree_at G n). split.
  - by apply list_elem_of_In, degree_elem_of.
  - by apply removal_condition_true.
Qed.

Lemma any_removal_false ntr G n :
  any_removal ntr G = false → n ∈ nodes G →
  ¬ (degree_at G n = 2 ∧ matches ntr n = true).
Proof.
  intros Hf Hn [Hd Hm].
  by rewrite (any_removal_true ntr G n) in Hf.
Qed.

(** *** What one pass does to a well-formed graph *)

Lemma iteration_spec ntr G n :
  wf G → selected ntr G = Some n →
  wf (iteration ntr G) ∧
  nodes (iteration ntr G) = filter (λ x, x ≠ n) (nodes G) ∧
  ∀ x y, y ∈ adj (iteration ntr G) x ↔
         x ≠ n ∧ y ≠ n ∧
         (y ∈ adj G x ∨ (x ∈ adj G n ∧ y ∈ adj G n ∧ x ≠ y)).
Proof.
  intros Hwf Hsel. rewrite (iteration_selected _ _ _ Hsel).
  unfold rewire. cbv zeta. rewrite edges_snd.
  change (foldl _ (copy G) ?es) with (add_edges_from (copy G) es).
  set (tmp := add_edges_from (copy G) (combinations_r2 (adj G n))).
  assert (Hwft : wf tmp) by by apply wf_add_edges_from, wf_copy.
  split_and!.
  - by apply wf_remove_node.
  - rewrite nodes_remove_node. f_equal. unfold tmp.
    rewrite nodes_add_edges_from_in; rewrite nodes_copy by done; [done|].
    intros [u v] [Hu Hv]%combinations_r2_elem. simpl.
    split; by eapply wf_closed.
  - intros x y. rewrite elem_of_adj_remove_node by done. unfold tmp.
    rewrite elem_of_adj_add_edges_from, elem_of_adj_copy by done.
    rewrite (combinations_r2_sym (adj G n) x y) by by apply wf_NoDup_adj.
    tauto.
Qed.

Lemma iteration_wf ntr G :
  wf G → any_removal ntr G = true → wf (iteration ntr G).
Proof.
  intros Hwf [n Hn]%any_removal_selected.
  by apply (iteration_spec ntr G n).
Qed.

Lemma iteration_nodes ntr G n :
  wf G → selected ntr G = Some n →
  nodes (iteration ntr G) = filter (λ x, x ≠ n) (nodes G).
Proof. intros Hwf Hn. by apply (iteration_spec ntr G n). Qed.

Lemma iteration_number_of_nodes ntr G :
  wf G → any_removal ntr G = true →
  S (number_of_nodes (iteration ntr G)) = number_of_nodes G.
Proof.
  intros Hwf [n Hn]%any_removal_selected.
  rewrite !number_of_nodes_nodes, (iteration_nodes ntr G n) by done.
  apply filter_ne_length; [by apply wf_NoDup_nodes|].
  by eapply selected_Some, Hn; apply wf_NoDup_nodes.
Qed.

(** *** The loop *)

Lemma reduction_loop_stop fuel ntr G :
  any_removal ntr G = false → reduction_loop fuel ntr G = Some (0, G).
Proof. intros Hf. destruct fuel; simpl; by rewrite Hf. Qed.

Lemma reduction_loop_step fuel ntr G :
  any_removal ntr G = true →
  reduction_loop (S fuel) ntr G =
  '(k, G') ← reduction_loop fuel ntr (iteration ntr G); Some (S k, G').
Proof. intros Ht. simpl. by rewrite Ht. Qed.

(** Enough fuel: the node count. *)
Lemma reduction_loop_terminates fuel ntr G :
  wf G → number_of_nodes G ≤ fuel →
  ∃ k G', reduction_loop fuel ntr G = Some (k, G') ∧
          k + number_of_nodes G' = number_of_nodes G.
Proof.
  revert G. induction fuel as [|fuel IH]; intros G Hwf Hle.
  - destruct (any_removal ntr G) eqn:Hany.
    + pose proof (iteration_number_of_nodes ntr G Hwf Hany). lia.
    + exists 0, G. by rewrite reduction_loop_stop.
  - destruct (any_removal ntr G) eqn:Hany.
    + pose proof (iteration_number_of_nodes ntr G Hwf Hany) as Hn.
      destruct (IH (iteration ntr G)) as (k & G' & Hk & Hsum).
      { by apply iteration_wf. }
      { lia. }
      exists (S k), G'. rewrite reduction_loop_step, Hk by done.
      split; [done|]. simpl. lia.
    + exists 0, G. by rewrite reduction_loop_stop.
Qed.

(** The result does not depend on the fuel, once there is enough of it
    for the passes made. *)
Lemma reduction_loop_fuel fuel fuel' ntr G k G' :
  reduction_loop fuel ntr G = Some (k, G') → k ≤ fuel' →
  reduction_loop fuel' ntr G = Some (k, G').
Proof.
  revert fuel' G k. induction fuel as [|fuel IH]; intros fuel' G k.
  - simpl. destruct (any_removal ntr G) eqn:Hany; [done|].
    intros [= <- <-] _. by apply reduction_loop_stop.
  - destruct (any_removal ntr G) eqn:Hany.
    + rewrite reduction_loop_step by done.
      destruct (reduction_loop fuel ntr (iteration ntr G))
        as [[k1 G1]|] eqn:Hl; [|done].
      simpl. intros [= <- <-] Hle. destruct fuel' as [|fuel']; [lia|].
      rewrite reduction_loop_step by done.
      rewrite (IH fuel' _ _ Hl) by lia. done.
    + rewrite reduction_loop_stop by done.
      intros [= <- <-] _. by apply reduction_loop_stop.
Qed.

(** Induction along the passes of a run that ends. *)
Lemma reduction_loop_ind (P : nat → Graph → Prop) ntr G' :
  (any_removal ntr G' = false → wf G' → P 0 G') →
  (∀ k G, wf G → any_removal ntr G = true →
          P k (iteration ntr G) → P (S k) G) →
  ∀ fuel k G, wf G → reduction_loop fuel ntr G = Some (k, G') → P k G.
Proof.
  intros Hstop Hstep fuel. induction fuel as [|fuel IH]; intros k G Hwf.
  - simpl. destruct (any_removal ntr G) eqn:Hany; [done|].
    intros [= <- <-]. by apply Hstop.
  - destruct (any_removal ntr G) eqn:Hany.
    + rewrite reduction_loop_step by done.
      destruct (reduction_loop fuel ntr (iteration ntr G))
        as [[k1 G1]|] eqn:Hl; [|done].
      simpl. intros [= <- <-]. apply Hstep; [done..|].
      apply IH; [by apply iteration_wf|done].
    + rewrite reduction_loop_stop by done.
      intros [= <- <-]. by apply Hstop.
Qed.

Lemma reduction_loop_result fuel ntr G k G' :
  wf G → reduction_loop fuel ntr G = Some (k, G') →
  wf G' ∧ any_removal ntr G' = false ∧
  k + number_of_nodes G' = number_of_nodes G ∧
  nodes G' ⊆ nodes G.
Proof.
  intros Hwf Hl.
  apply (reduction_loop_ind
           (λ k G, wf G' ∧ any_removal ntr G' = false ∧
                   k + number_of_nodes G' = number_of_nodes G ∧
                   nodes G' ⊆ nodes G) ntr G') in Hl; [done| |..|done].
  - intros. split_and!; done.
  - clear. intros k G Hwf Hany (? & ? & Hsum & Hsub).
    pose proof (iteration_number_of_nodes ntr G Hwf Hany).
    split_and!; [done..|lia|].
    apply any_removal_selected in Hany as [n Hn].
    rewrite (iteration_nodes ntr G n) in Hsub by done.
    intros x Hx. by apply Hsub, list_elem_of_filter in Hx as [_ ?].
Qed.

End reducer_facts.

(** ** The program on the store does what the reducer on values does *)

Section py_facts.
Implicit Types (G T : Graph) (h : Py.Heap) (r t : Py.Ref).
Implicit Types (ntr : list string).

Lemma bind_Ret {A B} (m : Py.M A) (f : A → Py.M B) h a h' :
  m h = Py.Ret a h' → (m ≫= f) h = f a h'.
Proof. intros Hm. unfold mbind, Py.M_bind. by rewrite Hm. Qed.

Lemma deref_Ret r h G : h !! r = Some G → Py.deref r h = Py.Ret G h.
Proof. intros Hr. unfold Py.deref. by rewrite Hr. Qed.

Lemma degree_Ret r h G : h !! r = Some G → Py.degree r h = Py.Ret (degree G) h.
Proof.
  intros Hr. unfold Py.degree. by erewrite bind_Ret; [|by apply deref_Ret].
Qed.

Lemma edges_Ret r node h G :
  h !! r = Some G → Py.edges r node h = Py.Ret (edges G node) h.
Proof.
  intros Hr. unfold Py.edges. by erewrite bind_Ret; [|by apply deref_Ret].
Qed.

Lemma mutate_Ret r f h G :
  h !! r = Some G → Py.mutate r f h = Py.Ret () (<[r := f G]> h).
Proof. intros Hr. unfold Py.mutate. by rewrite Hr. Qed.

Lemma for_each_add_edge t es h T :
  h !! t = Some T →
  Py.for_each (λ pair, Py.add_edge t pair.1 pair.2) es h =
  Py.Ret () (<[t := add_edges_from T es]> h).
Proof.
  revert h T. induction es as [|e es IH]; intros h T Ht.
  - simpl. by rewrite list_insert_id.
  - simpl. erewrite bind_Ret; [|by apply mutate_Ret].
    erewrite IH.
    + by rewrite list_insert_insert_eq.
    + apply list_lookup_insert_eq. by eapply lookup_lt_Some.
Qed.

Lemma remove_node_Ret t n h T :
  h !! t = Some T → n ∈ nodes T →
  Py.remove_node t n h = Py.Ret () (<[t := remove_node T n]> h).
Proof.
  intros Ht Hn. unfold Py.remove_node.
  erewrite bind_Ret; [|by apply deref_Ret].
  rewrite decide_True by done.
  by apply (mutate_Ret t (λ G, remove_node G n)).
Qed.

(** The [for] loop writes to the copy only. *)
Lemma scan_refines ntr r t view h G T :
  h !! r = Some G → h !! t = Some T →
  (∀ nd, nd ∈ view → nd.1 ∈ nodes T) →
  Py.scan ntr r t view h = Py.Ret () (<[t := scan ntr G T view]> h).
Proof.
  intros Hr Ht. induction view as [|[node deg] view IH]; intros Hview.
  - simpl. by rewrite list_insert_id.
  - simpl. destruct (_removal_condition ntr node deg).
    + erewrite bind_Ret; [|by apply edges_Ret].
      erewrite bind_Ret; [|by apply for_each_add_edge].
      erewrite remove_node_Ret.
      * by rewrite list_insert_insert_eq.
      * apply list_lookup_insert_eq. by eapply lookup_lt_Some.
      * apply elem_of_nodes_add_edges_from. left.
        apply (Hview (node, deg)). left.
    + apply IH. intros nd Hnd. apply Hview. by right.
Qed.

Lemma elem_of_nodes_foldl_add_node G l x :
  x ∈ nodes (foldl add_node G l) ↔ x ∈ nodes G ∨ x ∈ l.
Proof.
  revert G. induction l as [|a l IH]; intros G; simpl.
  - rewrite elem_of_nil. tauto.
  - rewrite IH, elem_of_nodes_add_node, elem_of_cons. tauto.
Qed.

Lemma nodes_copy_incl G x : x ∈ nodes G → x ∈ nodes (copy G).
Proof.
  intros Hx. unfold copy. apply elem_of_nodes_add_edges_from. left.
  apply elem_of_nodes_foldl_add_node. by right.
Qed.

(** One pass allocates one object, the copy, and leaves the rest of the
    store as it was. *)
Lemma iteration_refines ntr r h G :
  h !! r = Some G →
  Py.iteration ntr r h = Py.Ret (length h) (h ++ [iteration ntr G]).
Proof.
  intros Hr. unfold Py.iteration.
  assert (Hcopy : Py.copy r h = Py.Ret (length h) (h ++ [copy G])).
  { unfold Py.copy. by rewrite Hr. }
  erewrite bind_Ret; [|exact Hcopy].
  assert (Hr' : (h ++ [copy G]) !! r = Some G) by by apply lookup_app_l_Some.
  erewrite bind_Ret; [|by apply degree_Ret].
  erewrite bind_Ret.
  2: { apply (scan_refines ntr r (length h) (degree G) _ G (copy G));
       [done|by apply list_lookup_middle|].
       intros [n d] Hnd. simpl. apply nodes_copy_incl.
       apply list_elem_of_fmap in Hnd as (kv & [= -> _] & Hkv).
       apply list_elem_of_fmap. by exists kv. }
  unfold mret, Py.M_ret. f_equal.
  replace (length h) with (length h + 0) at 1 by lia.
  by rewrite insert_app_r.
Qed.

Lemma snapshots_head fuel ntr G :
  snapshots fuel ntr G = G :: tail (snapshots fuel ntr G).
Proof. by destruct fuel. Qed.

(** The loop on the store: the objects it allocates are the graphs the
    loop on values goes through, in order, and nothing else changes. *)
Lemma reduction_loop_refines n ntr r h G :
  h !! r = Some G →
  Py.reduction_loop n ntr r h =
  match reduction_loop n ntr G with
  | Some (k, G') =>
      Py.Ret (Py.result_ref r (length h) k) (h ++ tail (snapshots n ntr G))
  | None => Py.OutOfFuel
  end.
Proof.
  revert r h G. induction n as [|n IH]; intros r h G Hr.
  - simpl. erewrite bind_Ret; [|by apply degree_Ret].
    fold (any_removal ntr G). destruct (any_removal ntr G); [done|].
    simpl. by rewrite app_nil_r.
  - simpl. erewrite bind_Ret; [|by apply degree_Ret].
    fold (any_removal ntr G). destruct (any_removal ntr G).
    + erewrite bind_Ret; [|by apply iteration_refines].
      rewrite (IH _ _ (iteration ntr G)) by by apply list_lookup_middle.
      destruct (reduction_loop n ntr (iteration ntr G)) as [[k G']|];
        [|done].
      simpl. rewrite length_app. simpl.
      rewrite (snapshots_head n ntr (iteration ntr G)) at 2.
      rewrite <- app_assoc. simpl. f_equal.
      destruct k; simpl; lia.
    + simpl. by rewrite app_nil_r.
Qed.

End py_facts.

(** ** Sample runs *)

Example chain_built :
  Examples.chain =
  [("A", ["waveguide_X"]); ("waveguide_X", ["A"; "waveguide_Y"]);
   ("waveguide_Y", ["waveguide_X"; "B"]); ("B", ["waveguide_Y"])].
Proof. reflexivity. Qed.

Example chain_degree :
  degree Examples.chain =
  [("A", 1); ("waveguide_X", 2); ("waveguide_Y", 2); ("B", 1)].
Proof. reflexivity. Qed.

Example chain_snapshots :
  snapshots 4 ["waveguide"] Examples.chain =
  [Examples.chain;
   [("A", ["waveguide_Y"]); ("waveguide_Y", ["B"; "A"]);
    ("B", ["waveguide_Y"])];
   [("A", ["B"]); ("B", ["A"])]].
Proof. reflexivity. Qed.

Example chain_run :
  reduction_loop 4 ["waveguide"] Examples.chain =
  Some (2, [("A", ["B"]); ("B", ["A"])]).
Proof. reflexivity. Qed.

Example chain_out_of_fuel :
  reduction_loop 1 ["waveguide"] Examples.chain = None.
Proof. reflexivity. Qed.

Example triangle_run :
  reduction_loop 3 ["waveguide"] Examples.triangle =
  Some (1, [("waveguide_n", ["pad"]); ("pad", ["waveguide_n"])]).
Proof. reflexivity. Qed.

(** The self-loop counts twice: the node has degree 2, and its removal
    connects nothing. *)
Example looped_degree :
  degree Examples.looped = [("waveguide_o", 2); ("A", 1); ("B", 1)].
Proof. reflexivity. Qed.

Example looped_run :
  reduction_loop 3 ["waveguide"] Examples.looped =
  Some (1, [("A", ["B"]); ("B", ["A"])]).
Proof. reflexivity. Qed.

(** A node that starts with degree 3 can come down to degree 2 and then
    be removed: the degree that counts is the one at the time of the
    pass. *)
Example kite_run :
  degree_at Examples.kite "waveguide_v" = 3 ∧
  snapshots 4 ["waveguide"] Examples.kite =
  [Examples.kite;
   [("waveguide_v", ["y"; "z"]); ("y", ["waveguide_v"]);
    ("z", ["waveguide_v"])];
   [("y", ["z"]); ("z", ["y"])]].
Proof. split; reflexivity. Qed.

Example substring_in_examples :
  substring_in "waveguide" "straight_waveguide_12" = true ∧
  substring_in "waveguide" "wave_guide" = false ∧
  substring_in "" "pad" = true.
Proof. repeat split; reflexivity. Qed.

Example plot_nets_static :
  Py.plot_nets Examples.builder Py.Imported 4 Examples.args_empty
               [Examples.chain] =
  Py.Ret (Py.Figure (8, 6) 0 true 2000 "lightpink" 12 "Connectivity")
         [Examples.chain].
Proof. reflexivity. Qed.

Example plot_nets_interactive :
  Py.plot_nets Examples.builder Py.Imported 4 Examples.args_interactive
               [Examples.chain] =
  Py.Ret (Py.Html true true true 2 "connectivity.html")
         (snapshots 4 ["waveguide"] Examples.chain).
Proof. reflexivity. Qed.

(** An import failure that is no [ModuleNotFoundError] is not caught. *)
Example plot_nets_other_import_error :
  Py.plot_nets Examples.builder
    (Py.Failed (Py.Exc Py.ImportError "cannot import name 'Network'")) 4
    Examples.args_interactive [Examples.chain] =
  Py.Raise (Py.Exc Py.ImportError "cannot import name 'Network'")
           (snapshots 4 ["waveguide"] Examples.chain).
Proof. reflexivity. Qed.

(** A subclass of [ModuleNotFoundError] is caught like the class itself. *)
Example plot_nets_subclass_of_module_not_found :
  Py.plot_nets Examples.builder (Py.Failed Examples.package_not_found) 4
    Examples.args_interactive [Examples.chain] =
  Py.Raise (Py.ExcFrom Py.UserWarning Py.pyvis_hint
                       Examples.package_not_found)
           (snapshots 4 ["waveguide"] Examples.chain).
Proof. reflexivity. Qed.

(** ** The reduction loop: termination and fixpoint *)

(** Decide a closed proposition by evaluation. *)
Ltac by_compute := apply (bool_decide_unpack _); vm_compute; exact I.

Section loop_theorems.
Implicit Types (G H : Graph) (u v x y n a b : string) (ntr : list string).

Lemma reduction_loop_total ntr G :
  wf G →
  ∃ k G', k ≤ number_of_nodes G ∧
          ∀ fuel, k ≤ fuel → reduction_loop fuel ntr G = Some (k, G').
Proof.
  intros Hwf.
  destruct (reduction_loop_terminates (number_of_nodes G) ntr G)
    as (k & G' & Hl & Hsum); [done..|].
  exists k, G'. split; [lia|].
  intros fuel Hle. by eapply reduction_loop_fuel.
Qed.

(** C3.  On a well-formed graph the loop ends after [k] passes, with [k]
    at most the initial node count: every pass of the body removes
    exactly one node (and keeps the graph well-formed), so the result has
    [k] nodes less. *)
Theorem reduction_terminates ntr G :
  wf G →
  (∃ k G', k ≤ number_of_nodes G ∧
           k + number_of_nodes G' = number_of_nodes G ∧
           ∀ fuel, k ≤ fuel → reduction_loop fuel ntr G = Some (k, G')) ∧
  (∀ H, wf H → any_removal ntr H = true →
        wf (iteration ntr H) ∧
        S (number_of_nodes (iteration ntr H)) = number_of_nodes H).
Proof.
  intros Hwf. split.
  - destruct (reduction_loop_terminates (number_of_nodes G) ntr G)
      as (k & G' & Hl & Hsum); [done..|].
    exists k, G'. split_and!; [lia|done|].
    intros fuel Hle. by eapply reduction_loop_fuel.
  - intros H HwfH Hany. split.
    + by apply iteration_wf.
    + by apply iteration_number_of_nodes.
Qed.

Lemma reduction_terminates_witness :
  (∃ k G', k ≤ number_of_nodes Examples.chain ∧
           k + number_of_nodes G' = number_of_nodes Examples.chain ∧
           ∀ fuel, k ≤ fuel →
             reduction_loop fuel ["waveguide"] Examples.chain = Some (k, G')) ∧
  (∀ H, wf H → any_removal ["waveguide"] H = true →
        wf (iteration ["waveguide"] H) ∧
        S (number_of_nodes (iteration ["waveguide"] H)) = number_of_nodes H).
Proof.
  apply (reduction_terminates ["waveguide"] Examples.chain).
  apply (bool_decide_unpack _). vm_compute. exact I.
Defined.

(** C2.  On a well-formed graph the loop ends in a graph in which no node
    has both degree 2 and a label that contains one of the substrings;
    the loop run on that graph makes no pass and returns it as it is. *)
Theorem reduction_reaches_fixpoint ntr G :
  wf G →
  ∃ k G',
    (∀ fuel, number_of_nodes G ≤ fuel →
             reduction_loop fuel ntr G = Some (k, G')) ∧
    (∀ n, n ∈ nodes G' → ¬ (degree_at G' n = 2 ∧ matches ntr n = true)) ∧
    (∀ fuel, reduction_loop fuel ntr G' = Some (0, G')).
Proof.
  intros Hwf. destruct (reduction_loop_total ntr G Hwf) as (k & G' & Hk & Hl).
  exists k, G'.
  destruct (reduction_loop_result k ntr G k G') as (HwfG' & Hany & _);
    [done|by apply Hl|].
  split_and!.
  - intros fuel Hle. apply Hl. lia.
  - intros n Hn. by apply any_removal_false.
  - intros fuel. by apply reduction_loop_stop.
Qed.

Lemma reduction_reaches_fixpoint_witness :
  ∃ k G',
    (∀ fuel, number_of_nodes Examples.triangle ≤ fuel →
             reduction_loop fuel ["waveguide"] Examples.triangle
             = Some (k, G')) ∧
    (∀ n, n ∈ nodes G' →
          ¬ (degree_at G' n = 2 ∧ matches ["waveguide"] n = true)) ∧
    (∀ fuel, reduction_loop fuel ["waveguide"] G' = Some (0, G')).
Proof.
  apply (reduction_reaches_fixpoint ["waveguide"] Examples.triangle).
  apply (bool_decide_unpack _). vm_compute. exact I.
Defined.

(** ** Which node a pass removes, and how it rewires *)

(** A degree-2 node of a well-formed graph has either one self-loop and
    nothing else, or two distinct neighbours other than itself. *)
Lemma degree2_cases G n :
  wf G → degree_at G n = 2 →
  adj G n = [n] ∨ ∃ a b, adj G n = [a; b] ∧ a ≠ b ∧ a ≠ n ∧ b ≠ n.
Proof.
  intros Hwf. pose proof (wf_NoDup_adj G n Hwf) as Hnd.
  unfold degree_at, degree_of. destruct (adj G n) as [|a [|b [|c l]]];
    case_decide as Hin; simpl; try lia; intros _.
  - left. by apply list_elem_of_singleton in Hin as ->.
  - right. exists a, b. apply NoDup_cons in Hnd as [Ha _].
    apply not_elem_of_cons in Hin as [? [? _]%not_elem_of_cons].
    apply not_elem_of_cons in Ha as [? _]. split_and!; congruence.
Qed.

Lemma iteration_not_selected ntr G :
  selected ntr G = None → iteration ntr G = copy G.
Proof.
  unfold selected, iteration. rewrite scan_find.
  by destruct (find _ _).
Qed.

Lemma iteration_keeps ntr G v :
  wf G → v ∈ nodes G → matches ntr v = false ∨ degree_at G v ≠ 2 →
  v ∈ nodes (iteration ntr G).
Proof.
  intros Hwf Hv Hnot. destruct (selected ntr G) as [n|] eqn:Hsel.
  - rewrite (iteration_nodes ntr G n) by done.
    apply list_elem_of_filter. split; [|done]. intros ->.
    apply selected_Some in Hsel as (_ & Hd & Hm); [|by apply wf_NoDup_nodes].
    destruct Hnot; congruence.
  - rewrite iteration_not_selected, nodes_copy by done. done.
Qed.

Lemma iteration_removes ntr G v :
  wf G → v ∈ nodes G → v ∉ nodes (iteration ntr G) → selected ntr G = Some v.
Proof.
  intros Hwf Hv Hnot. destruct (selected ntr G) as [n|] eqn:Hsel.
  - rewrite (iteration_nodes ntr G n) in Hnot by done.
    destruct (decide (v = n)) as [->|Hne]; [done|].
    destruct Hnot. by apply list_elem_of_filter.
  - rewrite iteration_not_selected, nodes_copy in Hnot by done. done.
Qed.

Lemma snapshots_step k ntr G :
  any_removal ntr G = true →
  snapshots (S k) ntr G = G :: snapshots k ntr (iteration ntr G).
Proof. intros Hany. simpl. by rewrite Hany. Qed.

(** C5.  On a well-formed graph the loop ends, and: a node whose label
    matches no substring is in the result; in every pass, a node that does
    not match or whose degree is not 2 at that moment stays; every node of
    the input that the result lacks was, in one of the graphs the loop
    went through, the matching degree-2 node that the pass removed.  The
    graph is arbitrary, so this holds for every node order. *)
Theorem only_reducible_nodes_are_removed ntr G :
  wf G →
  ∃ k G',
    (∀ fuel, number_of_nodes G ≤ fuel →
             reduction_loop fuel ntr G = Some (k, G')) ∧
    (∀ v, v ∈ nodes G → matches ntr v = false → v ∈ nodes G') ∧
    (∀ H v, wf H → v ∈ nodes H →
            matches ntr v = false ∨ degree_at H v ≠ 2 →
            v ∈ nodes (iteration ntr H)) ∧
    (∀ v, v ∈ nodes G → v ∉ nodes G' →
          ∃ H, H ∈ snapshots k ntr G ∧ wf H ∧ v ∈ nodes H ∧
               degree_at H v = 2 ∧ matches ntr v = true ∧
               selected ntr H = Some v ∧ v ∉ nodes (iteration ntr H)).
Proof.
  intros Hwf. destruct (reduction_loop_total ntr G Hwf) as (k & G' & Hk & Hl).
  exists k, G'. specialize (Hl k (le_n k)). split_and!.
  - intros fuel Hle. eapply reduction_loop_fuel; [done|lia].
  - refine (reduction_loop_ind
      (λ k G, ∀ v, v ∈ nodes G → matches ntr v = false → v ∈ nodes G')
      ntr G' _ _ k k G Hwf Hl); [done|].
    clear. intros k G Hwf Hany IH v Hv Hm.
    apply IH; [|done]. apply iteration_keeps; auto.
  - intros H v. apply iteration_keeps.
  - refine (reduction_loop_ind
      (λ k G, ∀ v, v ∈ nodes G → v ∉ nodes G' →
         ∃ H, H ∈ snapshots k ntr G ∧ wf H ∧ v ∈ nodes H ∧
              degree_at H v = 2 ∧ matches ntr v = true ∧
              selected ntr H = Some v ∧ v ∉ nodes (iteration ntr H))
      ntr G' _ _ k k G Hwf Hl); [by intros|].
    clear. intros k G Hwf Hany IH v Hv Hnot.
    rewrite snapshots_step by done.
    destruct (decide (v ∈ nodes (iteration ntr G))) as [Hin|Hout].
    + destruct (IH v Hin Hnot) as (H & HH & Hrest).
      exists H. split; [by right|done].
    + exists G. pose proof (iteration_removes ntr G v Hwf Hv Hout) as Hsel.
      destruct (selected_Some ntr G v) as (_ & ? & ?);
        [by apply wf_NoDup_nodes|done|].
      split_and!; [left|done..].
Qed.

Lemma only_reducible_nodes_are_removed_witness :
  ∃ k G',
    (∀ fuel, number_of_nodes Examples.triangle ≤ fuel →
             reduction_loop fuel ["waveguide"] Examples.triangle
             = Some (k, G')) ∧
    (∀ v, v ∈ nodes Examples.triangle → matches ["waveguide"] v = false →
          v ∈ nodes G') ∧
    (∀ H v, wf H → v ∈ nodes H →
            matches ["waveguide"] v = false ∨ degree_at H v ≠ 2 →
            v ∈ nodes (iteration ["waveguide"] H)) ∧
    (∀ v, v ∈ nodes Examples.triangle → v ∉ nodes G' →
          ∃ H, H ∈ snapshots k ["waveguide"] Examples.triangle ∧ wf H ∧
               v ∈ nodes H ∧ degree_at H v = 2 ∧
               matches ["waveguide"] v = true ∧
               selected ["waveguide"] H = Some v ∧
               v ∉ nodes (iteration ["waveguide"] H)).
Proof.
  apply (only_reducible_nodes_are_removed ["waveguide"] Examples.triangle).
  apply (bool_decide_unpack _). vm_compute. exact I.
Defined.

(** C1 as stated fails on the triangle: [waveguide_n] matches and has
    degree 2 with the neighbours [waveguide_m] and [pad], but the pass
    that removes [waveguide_m] (first in node order) finds the edge
    [waveguide_n - pad] already there, so [waveguide_n] drops to degree 1
    and is still in the graph when the loop ends; nor is there an edge
    between its two former neighbours, one of which is gone. *)
Lemma rewiring_claim_fails_on_triangle :
  wf Examples.triangle ∧
  matches ["waveguide"] "waveguide_n" = true ∧
  degree_at Examples.triangle "waveguide_n" = 2 ∧
  adj Examples.triangle "waveguide_n" = ["waveguide_m"; "pad"] ∧
  (∀ fuel, 1 ≤ fuel →
     reduction_loop fuel ["waveguide"] Examples.triangle =
     Some (1, [("waveguide_n", ["pad"]); ("pad", ["waveguide_n"])])) ∧
  "waveguide_n" ∈ nodes [("waveguide_n", ["pad"]); ("pad", ["waveguide_n"])] ∧
  "pad" ∉ adj [("waveguide_n", ["pad"]); ("pad", ["waveguide_n"])]
              "waveguide_m".
Proof.
  split_and!; [by_compute|done|done|done| |by_compute|by_compute].
  intros fuel Hle. by apply (reduction_loop_fuel 1).
Qed.

(** The pass that selects [n]: if [n] is the node a pass selects (the
    first in node order with degree 2 and a matching label) and [a], [b]
    are its two neighbours, then after that pass [n] is gone and [a - b]
    is an edge, entered once in each of the two neighbour dicts whether or
    not it was there before; and [n] is not in the graph the loop ends
    with. *)
Lemma rewiring_of_selected_node ntr G n a b :
  wf G → selected ntr G = Some n →
  a ∈ adj G n → b ∈ adj G n → a ≠ b →
  (n ∉ nodes (iteration ntr G)) ∧
  b ∈ adj (iteration ntr G) a ∧ a ∈ adj (iteration ntr G) b ∧
  NoDup (adj (iteration ntr G) a) ∧ NoDup (adj (iteration ntr G) b) ∧
  ∃ k G', (∀ fuel, number_of_nodes G ≤ fuel →
                   reduction_loop fuel ntr G = Some (k, G')) ∧
          n ∉ nodes G'.
Proof.
  intros Hwf Hsel Ha Hb Hab.
  destruct (iteration_spec ntr G n Hwf Hsel) as (Hwf1 & Hnodes & Hadj).
  destruct (selected_Some ntr G n) as (Hn & Hdeg & _);
    [by apply wf_NoDup_nodes|done|].
  assert (a ≠ n ∧ b ≠ n) as [Han Hbn].
  { destruct (degree2_cases G n Hwf Hdeg) as [Hl|(a' & b' & Hl & ? & ? & ?)];
      rewrite Hl in Ha, Hb.
    - apply list_elem_of_singleton in Ha, Hb. congruence.
    - rewrite !elem_of_cons, elem_of_nil in Ha, Hb.
      split; intros ->; intuition congruence. }
  assert (Hgone : n ∉ nodes (iteration ntr G)).
  { rewrite Hnodes, list_elem_of_filter. tauto. }
  split_and!;
    [done|apply Hadj; intuition congruence|apply Hadj; intuition congruence|
     by apply wf_NoDup_adj|by apply wf_NoDup_adj|].
  destruct (reduction_loop_total ntr G Hwf) as (k & G' & Hk & Hl).
  exists k, G'. split; [intros fuel Hle; apply Hl; lia|].
  specialize (Hl k (le_n k)).
  assert (Hany : any_removal ntr G = true).
  { apply any_removal_selected. by rewrite Hsel. }
  destruct k as [|k]; [simpl in Hl; by rewrite Hany in Hl|].
  rewrite reduction_loop_step in Hl by done.
  destruct (reduction_loop k ntr (iteration ntr G)) as [[k1 G1]|] eqn:Hl1;
    [|done].
  simpl in Hl. injection Hl as <- <-.
  apply reduction_loop_result in Hl1 as (_ & _ & _ & Hsub); [|done].
  intros Hin. by apply Hgone, Hsub.
Qed.

(** ** Self-loops *)

(** C10.  On a well-formed graph: the pairs a pass connects, which are the
    2-combinations of the neighbour list of a degree-2 node, join distinct
    nodes; a degree-2 node whose degree comes from a self-loop has no
    such pair, and the pass that selects it removes it and adds no edge;
    a self-loop of the graph after a pass was a self-loop before it; and
    so every self-loop of the graph the loop ends with was one of the
    input. *)
Theorem no_new_self_loops ntr G :
  wf G →
  (∀ n p, degree_at G n = 2 →
          p ∈ combinations_r2 (edges G n).*2 → p.1 ≠ p.2) ∧
  (∀ n, degree_at G n = 2 → n ∈ adj G n →
        combinations_r2 (edges G n).*2 = [] ∧
        (selected ntr G = Some n →
         (n ∉ nodes (iteration ntr G)) ∧
         ∀ x y, y ∈ adj (iteration ntr G) x ↔ y ∈ adj G x ∧ x ≠ n ∧ y ≠ n)) ∧
  (∀ v, v ∈ adj (iteration ntr G) v → v ∈ adj G v) ∧
  ∃ k G', (∀ fuel, number_of_nodes G ≤ fuel →
                   reduction_loop fuel ntr G = Some (k, G')) ∧
          ∀ v, v ∈ adj G' v → v ∈ adj G v.
Proof.
  intros Hwf.
  assert (Hstep : ∀ H v, wf H → v ∈ adj (iteration ntr H) v → v ∈ adj H v).
  { intros H v HwfH. destruct (selected ntr H) as [n|] eqn:Hsel.
    - destruct (iteration_spec ntr H n HwfH Hsel) as (_ & _ & Hadj).
      rewrite Hadj. tauto.
    - rewrite iteration_not_selected by done. by rewrite elem_of_adj_copy. }
  split_and!.
  - intros n [x y] _ Hp. rewrite edges_snd in Hp. simpl.
    eapply combinations_r2_distinct; [|done]. by apply wf_NoDup_adj.
  - intros n Hdeg Hloop. rewrite edges_snd.
    destruct (degree2_cases G n Hwf Hdeg) as [Hl|(a & b & Hl & ? & ? & ?)].
    + rewrite Hl. split; [done|]. intros Hsel.
      destruct (iteration_spec ntr G n Hwf Hsel) as (_ & Hnodes & Hadj).
      split; [rewrite Hnodes, list_elem_of_filter; tauto|].
      intros x y. rewrite Hadj, Hl, !list_elem_of_singleton.
      split; [|tauto]. intros (? & ? & [?|(? & ? & ?)]); [done|congruence].
    + rewrite Hl, !elem_of_cons, elem_of_nil in Hloop.
      intuition congruence.
  - intros v. by apply Hstep.
  - destruct (reduction_loop_total ntr G Hwf) as (k & G' & Hk & Hl).
    exists k, G'. split; [intros fuel Hle; apply Hl; lia|].
    specialize (Hl k (le_n k)).
    refine (reduction_loop_ind
      (λ k G, ∀ v, v ∈ adj G' v → v ∈ adj G v)
      ntr G' _ _ k k G Hwf Hl); [done|].
    intros k0 H HwfH _ IH v Hv. by apply Hstep, IH.
Qed.

Lemma no_new_self_loops_witness :
  (∀ n p, degree_at Examples.looped n = 2 →
          p ∈ combinations_r2 (edges Examples.looped n).*2 → p.1 ≠ p.2) ∧
  (∀ n, degree_at Examples.looped n = 2 → n ∈ adj Examples.looped n →
        combinations_r2 (edges Examples.looped n).*2 = [] ∧
        (selected ["waveguide"] Examples.looped = Some n →
         (n ∉ nodes (iteration ["waveguide"] Examples.looped)) ∧
         ∀ x y, y ∈ adj (iteration ["waveguide"] Examples.looped) x ↔
                y ∈ adj Examples.looped x ∧ x ≠ n ∧ y ≠ n)) ∧
  (∀ v, v ∈ adj (iteration ["waveguide"] Examples.looped) v →
        v ∈ adj Examples.looped v) ∧
  ∃ k G', (∀ fuel, number_of_nodes Examples.looped ≤ fuel →
                   reduction_loop fuel ["waveguide"] Examples.looped
                   = Some (k, G')) ∧
          ∀ v, v ∈ adj G' v → v ∈ adj Examples.looped v.
Proof.
  apply (no_new_self_loops ["waveguide"] Examples.looped). by_compute.
Defined.

(** ** The chain scenario *)

Lemma degree_at_members G n (l : list string) :
  wf G → NoDup l → (∀ v, v ∈ adj G n ↔ v ∈ l) →
  degree_at G n = degree_of n l.
Proof.
  intros Hwf Hnd Hmem. unfold degree_at, degree_of.
  assert (Hperm : adj G n ≡ₚ l).
  { apply NoDup_Permutation; [by apply wf_NoDup_adj|done..]. }
  rewrite (Permutation_length Hperm). f_equal.
  destruct (decide (n ∈ adj G n)) as [Hin|Hout], (decide (n ∈ l));
    try done; by rewrite Hmem in *.
Qed.

Ltac members :=
  rewrite ?elem_of_cons, ?elem_of_nil, ?pair_equal_spec;
  intuition (subst; try congruence).

Lemma path3_reduces ntr G a m b :
  NoDup [a; m; b] →
  has_shape G [a; m; b] [(a, m); (m, b)] →
  matches ntr m = true → matches ntr a = false → matches ntr b = false →
  any_removal ntr G = true ∧ has_shape (iteration ntr G) [a; b] [(a, b)].
Proof.
  intros Hnd (Hwf & Hn & He) Hm Ha Hb.
  assert (a ≠ m ∧ a ≠ b ∧ m ≠ b) as (Ham & Hab & Hmb).
  { apply NoDup_cons in Hnd as [H1 Hnd]. apply NoDup_cons in Hnd as [H2 _].
    revert H1 H2. members. }
  assert (Hdeg : degree_at G m = 2).
  { rewrite (degree_at_members G m [a; b]); [|done|..].
    - unfold degree_of. rewrite decide_False; [done|]. members.
    - repeat constructor; members.
    - intros v. rewrite He. members. }
  assert (Hany : any_removal ntr G = true).
  { apply (any_removal_true ntr G m); [|done..]. apply Hn. members. }
  split; [done|].
  apply any_removal_selected in Hany as [n Hsel].
  destruct (selected_Some ntr G n) as (Hin & _ & Hmn);
    [by apply wf_NoDup_nodes|done|].
  assert (n = m) as ->.
  { apply Hn in Hin. revert Hin. members. }
  destruct (iteration_spec ntr G m Hwf Hsel) as (Hwf1 & Hnodes & Hadj).
  split_and!; [done|..].
  - intros v. rewrite Hnodes, list_elem_of_filter, Hn. members.
  - intros u v. rewrite Hadj, !He. members.
Qed.

Lemma chain_first_pass ntr G a x y b :
  NoDup [a; x; y; b] →
  has_shape G [a; x; y; b] [(a, x); (x, y); (y, b)] →
  matches ntr x = true → matches ntr y = true →
  matches ntr a = false → matches ntr b = false →
  any_removal ntr G = true ∧
  (has_shape (iteration ntr G) [a; y; b] [(a, y); (y, b)] ∨
   has_shape (iteration ntr G) [a; x; b] [(a, x); (x, b)]).
Proof.
  intros Hnd (Hwf & Hn & He) Hx Hy Ha Hb.
  assert (a ≠ x ∧ a ≠ y ∧ a ≠ b ∧ x ≠ y ∧ x ≠ b ∧ y ≠ b)
    as (? & ? & ? & ? & ? & ?).
  { apply NoDup_cons in Hnd as [H1 Hnd]. apply NoDup_cons in Hnd as [H2 Hnd].
    apply NoDup_cons in Hnd as [H3 _]. revert H1 H2 H3. members. }
  assert (Hdeg : degree_at G x = 2).
  { rewrite (degree_at_members G x [a; y]); [|done|..].
    - unfold degree_of. rewrite decide_False; [done|]. members.
    - repeat constructor; members.
    - intros v. rewrite He. members. }
  assert (Hany : any_removal ntr G = true).
  { apply (any_removal_true ntr G x); [|done..]. apply Hn. members. }
  split; [done|].
  apply any_removal_selected in Hany as [n Hsel].
  destruct (selected_Some ntr G n) as (Hin & _ & Hmn);
    [by apply wf_NoDup_nodes|done|].
  destruct (iteration_spec ntr G n Hwf Hsel) as (Hwf1 & Hnodes & Hadj).
  assert (n = x ∨ n = y) as [-> | ->].
  { apply Hn in Hin. revert Hin. members. }
  - left. split_and!; [done|..].
    + intros v. rewrite Hnodes, list_elem_of_filter, Hn. members.
    + intros u v. rewrite Hadj, !He. members.
  - right. split_and!; [done|..].
    + intros v. rewrite Hnodes, list_elem_of_filter, Hn. members.
    + intros u v. rewrite Hadj, !He. members.
Qed.

Lemma NoDup_members_1 (l : list string) b :
  NoDup l → (∀ v, v ∈ l ↔ v ∈ [b]) → l = [b].
Proof.
  intros Hnd Hmem.
  assert (Hperm : l ≡ₚ [b]) by (apply NoDup_Permutation;
    [done|apply NoDup_singleton|done]).
  by apply Permutation_singleton_r in Hperm.
Qed.

Lemma graph_eta G :
  NoDup (nodes G) → G = map (λ n, (n, adj G n)) (nodes G).
Proof.
  intros Hnd. apply list_eq_Forall2.
  unfold nodes. rewrite <- list_fmap_compose.
  apply Forall2_fmap_r, Forall_Forall2_diag, Forall_forall.
  intros [k nbrs] Hin. simpl. by rewrite (adj_lookup G k nbrs).
Qed.

Lemma edge2_stops ntr G a b :
  a ≠ b → has_shape G [a; b] [(a, b)] →
  matches ntr a = false → matches ntr b = false →
  any_removal ntr G = false ∧ number_of_nodes G = 2 ∧ number_of_edges G = 1.
Proof.
  intros Hab (Hwf & Hn & He) Ha Hb.
  assert (Hnodes : nodes G ≡ₚ [a; b]).
  { apply NoDup_Permutation; [by apply wf_NoDup_nodes| |done].
    repeat constructor; members. }
  assert (Hadja : adj G a = [b]).
  { apply NoDup_members_1; [by apply wf_NoDup_adj|].
    intros v. rewrite He. members. }
  assert (Hadjb : adj G b = [a]).
  { apply NoDup_members_1; [by apply wf_NoDup_adj|].
    intros v. rewrite He. members. }
  split_and!.
  - destruct (any_removal ntr G) eqn:Hany; [|done].
    apply any_removal_selected in Hany as [n Hsel].
    destruct (selected_Some ntr G n) as (Hin & _ & Hmn);
      [by apply wf_NoDup_nodes|done|].
    apply Hn in Hin. revert Hin. members.
  - rewrite number_of_nodes_nodes. by rewrite (Permutation_length Hnodes).
  - rewrite (graph_eta G) by by apply wf_NoDup_nodes.
    assert (nodes G = [a; b] ∨ nodes G = [b; a]) as [-> | ->].
    { destruct (nodes G) as [|n1 [|n2 [|n3 l]]];
        try by apply Permutation_length in Hnodes.
      apply Permutation_length_2 in Hnodes. intuition congruence. }
    + simpl. rewrite Hadja, Hadjb. unfold number_of_edges, degree.
      simpl. unfold degree_of. simpl.
      rewrite !decide_False; [done|members..].
    + simpl. rewrite Hadja, Hadjb. unfold number_of_edges, degree.
      simpl. unfold degree_of. simpl.
      rewrite !decide_False; [done|members..].
Qed.

(** C4.  A graph whose nodes are [a], [x], [y], [b] and whose edges are
    [a - x], [x - y], [y - b], where [x] and [y] match the filter and [a]
    and [b] do not, is reduced in two passes to the graph with the two
    nodes [a] and [b] and the one edge [a - b].  The node order and the
    order inside the neighbour dicts are arbitrary. *)
Theorem chain_reduces_to_edge ntr G a x y b :
  NoDup [a; x; y; b] →
  has_shape G [a; x; y; b] [(a, x); (x, y); (y, b)] →
  matches ntr x = true → matches ntr y = true →
  matches ntr a = false → matches ntr b = false →
  ∃ G', (∀ fuel, 2 ≤ fuel → reduction_loop fuel ntr G = Some (2, G')) ∧
        has_shape G' [a; b] [(a, b)] ∧
        number_of_nodes G' = 2 ∧ number_of_edges G' = 1.
Proof.
  intros Hnd Hshape Hx Hy Ha Hb.
  assert (a ≠ x ∧ a ≠ y ∧ a ≠ b ∧ x ≠ y ∧ x ≠ b ∧ y ≠ b)
    as (? & ? & ? & ? & ? & ?).
  { apply NoDup_cons in Hnd as [H1 Hnd']. apply NoDup_cons in Hnd' as [H2 Hnd'].
    apply NoDup_cons in Hnd' as [H3 _]. revert H1 H2 H3. members. }
  destruct (chain_first_pass ntr G a x y b) as [Hany1 Hpath]; [done..|].
  set (G1 := iteration ntr G) in *.
  assert (any_removal ntr G1 = true ∧
          has_shape (iteration ntr G1) [a; b] [(a, b)]) as [Hany2 Hedge].
  { destruct Hpath as [Hp|Hp].
    - apply (path3_reduces ntr G1 a y b); [|done..].
      repeat constructor; members.
    - apply (path3_reduces ntr G1 a x b); [|done..].
      repeat constructor; members. }
  destruct (edge2_stops ntr (iteration ntr G1) a b) as (Hany3 & Hnn & Hne);
    [done..|].
  exists (iteration ntr G1). split_and!; [|done..].
  intros fuel Hle. apply (reduction_loop_fuel 2); [|done].
  rewrite reduction_loop_step by done. fold G1.
  rewrite reduction_loop_step by done.
  by rewrite reduction_loop_stop.
Qed.

Lemma chain_reduces_to_edge_witness :
  ∃ G', (∀ fuel, 2 ≤ fuel →
          reduction_loop fuel ["waveguide"] Examples.chain = Some (2, G')) ∧
        has_shape G' ["A"; "B"] [("A", "B")] ∧
        number_of_nodes G' = 2 ∧ number_of_edges G' = 1.
Proof.
  apply (chain_reduces_to_edge ["waveguide"] Examples.chain
           "A" "waveguide_X" "waveguide_Y" "B").
  - by_compute.
  - split_and!.
    + by_compute.
    + intros v. by change (nodes Examples.chain)
        with ["A"; "waveguide_X"; "waveguide_Y"; "B"].
    + intros u v. split.
      * intros Hv. pose proof (adj_elem_node _ _ _ Hv) as Hu.
        change (nodes Examples.chain)
          with ["A"; "waveguide_X"; "waveguide_Y"; "B"] in Hu.
        repeat (apply elem_of_cons in Hu as [->|Hu];
          [vm_compute adj in Hv;
           repeat (apply elem_of_cons in Hv as [->|Hv]; [by_compute|]);
           by apply elem_of_nil in Hv|]).
        by apply elem_of_nil in Hu.
      * intros [He|He];
          repeat (apply elem_of_cons in He as [[= -> ->]|He]; [by_compute|]);
          by apply elem_of_nil in He.
  - reflexivity.
  - reflexivity.
  - reflexivity.
  - reflexivity.
Defined.

End loop_theorems.

(** ** [plot_nets] on the store *)

Section plot_nets_theorems.
Implicit Types (G : Graph) (h : Py.Heap) (r : Py.Ref) (ntr : list string).
Implicit Types (args : Py.Args) (e : Py.Exn).

Lemma snapshots_length n ntr G k G' :
  reduction_loop n ntr G = Some (k, G') →
  length (snapshots n ntr G) = S k ∧ last (snapshots n ntr G) = Some G'.
Proof.
  revert G k. induction n as [|n IH]; intros G k; simpl.
  - destruct (any_removal ntr G); [done|]. by intros [= <- <-].
  - destruct (any_removal ntr G); [|by intros [= <- <-]].
    destruct (reduction_loop n ntr (iteration ntr G)) as [[k1 G1]|] eqn:Hl;
      [|done].
    simpl. intros [= <- <-]. destruct (IH _ _ Hl) as [Hlen Hlast].
    split; [by rewrite Hlen|].
    rewrite (snapshots_head n ntr (iteration ntr G)) in Hlast |- *.
    by rewrite last_cons_cons.
Qed.

(** C8.  A pass of the loop body allocates one new object, the copy it
    works on, and leaves every object of the store as it was; the [for]
    loop inside writes to no object but the copy.  So a run of the loop
    never raises, extends the store by one object per pass without
    changing the objects it found, and returns either the reference it
    was given (no pass ran) or a reference to an object that did not exist
    before.  On a well-formed graph, with fuel for the node count, the
    run returns. *)
Theorem reduction_does_not_mutate_snapshots ntr h r G :
  h !! r = Some G →
  Py.iteration ntr r h = Py.Ret (length h) (h ++ [iteration ntr G]) ∧
  (∀ t T view, h !! t = Some T → (∀ nd, nd ∈ view → nd.1 ∈ nodes T) →
     ∃ T', Py.scan ntr r t view h = Py.Ret () (<[t := T']> h)) ∧
  (∀ n r' h', Py.reduction_loop n ntr r h = Py.Ret r' h' →
     ∃ news, h' = h ++ news ∧
             (∀ i O, h !! i = Some O → h' !! i = Some O) ∧
             (r' = r ∧ news = [] ∨ length h ≤ r' ∧ news ≠ [])) ∧
  (∀ n e h', Py.reduction_loop n ntr r h ≠ Py.Raise e h') ∧
  (wf G → ∀ n, number_of_nodes G ≤ n →
     ∃ r' h', Py.reduction_loop n ntr r h = Py.Ret r' h').
Proof.
  intros Hr. split_and!.
  - by apply iteration_refines.
  - intros t T view Ht Hview. eexists. by eapply scan_refines.
  - intros n r' h'. rewrite (reduction_loop_refines n ntr r h G Hr).
    destruct (reduction_loop n ntr G) as [[k G']|] eqn:Hl; [|done].
    intros [= <- <-]. exists (tail (snapshots n ntr G)).
    split_and!; [done|by intros; apply lookup_app_l_Some|].
    destruct (snapshots_length _ _ _ _ _ Hl) as [Hlen _].
    rewrite snapshots_head in Hlen.
    destruct k as [|k]; simpl in *.
    + left. split; [done|]. by destruct (tail _).
    + right. split; [lia|]. by destruct (tail _).
  - intros n e h'. rewrite (reduction_loop_refines n ntr r h G Hr).
    by destruct (reduction_loop n ntr G) as [[k G']|].
  - intros Hwf n Hle. rewrite (reduction_loop_refines n ntr r h G Hr).
    destruct (reduction_loop_terminates n ntr G Hwf Hle) as (k & G' & -> & _).
    eauto.
Qed.

Lemma reduction_does_not_mutate_snapshots_witness :
  Py.iteration ["waveguide"] 0 [Examples.chain] =
    Py.Ret (length [Examples.chain])
           ([Examples.chain] ++ [iteration ["waveguide"] Examples.chain]) ∧
  (∀ t T view, [Examples.chain] !! t = Some T →
     (∀ nd, nd ∈ view → nd.1 ∈ nodes T) →
     ∃ T', Py.scan ["waveguide"] 0 t view [Examples.chain] =
           Py.Ret () (<[t := T']> [Examples.chain])) ∧
  (∀ n r' h',
     Py.reduction_loop n ["waveguide"] 0 [Examples.chain] = Py.Ret r' h' →
     ∃ news, h' = [Examples.chain] ++ news ∧
             (∀ i O, [Examples.chain] !! i = Some O → h' !! i = Some O) ∧
             (r' = 0 ∧ news = [] ∨
              length [Examples.chain] ≤ r' ∧ news ≠ [])) ∧
  (∀ n e h',
     Py.reduction_loop n ["waveguide"] 0 [Examples.chain] ≠ Py.Raise e h') ∧
  (wf Examples.chain → ∀ n, number_of_nodes Examples.chain ≤ n →
     ∃ r' h',
       Py.reduction_loop n ["waveguide"] 0 [Examples.chain] = Py.Ret r' h').
Proof.
  apply (reduction_does_not_mutate_snapshots
           ["waveguide"] [Examples.chain] 0 Examples.chain).
  reflexivity.
Defined.

(** What [plot_nets] does once the builder has returned a graph. *)
Lemma plot_nets_run nff pyvis fuel args h r h1 G :
  nff args h = Py.Ret r h1 → h1 !! r = Some G →
  Py.plot_nets nff pyvis fuel args h =
  if Py.truthy (Py.nodes_to_reduce args) then
    match reduction_loop fuel (default [] (Py.nodes_to_reduce args)) G with
    | Some (k, G') =>
        Py.render pyvis (Py.interactive args)
          (Py.result_ref r (length h1) k)
          (h1 ++ tail (snapshots fuel (default [] (Py.nodes_to_reduce args)) G))
    | None => Py.OutOfFuel
    end
  else Py.render pyvis (Py.interactive args) r h1.
Proof.
  intros Hnff Hr. unfold Py.plot_nets.
  erewrite bind_Ret; [|done].
  destruct (Py.truthy (Py.nodes_to_reduce args)); [|done].
  unfold mbind at 1, Py.M_bind.
  rewrite (reduction_loop_refines _ _ _ _ G Hr).
  by destruct (reduction_loop _ _ G) as [[k G']|].
Qed.

Lemma plot_nets_reduced nff pyvis fuel args h r h1 G :
  nff args h = Py.Ret r h1 → h1 !! r = Some G →
  wf G → number_of_nodes G ≤ fuel →
  ∃ r' h2 G',
    Py.plot_nets nff pyvis fuel args h =
      Py.render pyvis (Py.interactive args) r' h2 ∧
    h2 !! r' = Some G' ∧
    if Py.truthy (Py.nodes_to_reduce args)
    then ∃ k, reduction_loop fuel (default [] (Py.nodes_to_reduce args)) G
              = Some (k, G')
    else r' = r ∧ h2 = h1 ∧ G' = G.
Proof.
  intros Hnff Hr Hwf Hle. rewrite (plot_nets_run _ _ _ _ _ _ _ _ Hnff Hr).
  destruct (Py.truthy (Py.nodes_to_reduce args)); [|by exists r, h1, G].
  set (ntr := default [] (Py.nodes_to_reduce args)).
  destruct (reduction_loop_terminates fuel ntr G Hwf Hle)
    as (k & G' & Hl & _).
  rewrite Hl. eexists _, _, G'. split_and!; [done| |by exists k].
  destruct (snapshots_length _ _ _ _ _ Hl) as [Hlen Hlast].
  rewrite snapshots_head in Hlen, Hlast.
  destruct k as [|k]; simpl.
  - destruct (tail _); [|done]. simpl in Hlast. injection Hlast as <-.
    by rewrite app_nil_r.
  - destruct (tail (snapshots fuel ntr G)) as [|G1 l] eqn:Htl; [done|].
    rewrite last_cons_cons in Hlast. simpl in Hlen.
    rewrite lookup_app_r by lia.
    replace (length h1 + k - length h1) with k by lia.
    rewrite last_lookup in Hlast. simpl in Hlast.
    by replace k with (length l) by lia.
Qed.

(** C6.  With [nodes_to_reduce] [None] or empty, [plot_nets] is the
    builder followed by the renderer: whatever the fuel, the loop is not
    entered, and the renderer gets the reference the builder returned and
    the store as the builder left it.  In the static mode, or with [pyvis]
    imported, nothing is raised and that reference is what is shown. *)
Theorem empty_reduction_set_skips_reduction nff pyvis fuel args h :
  Py.nodes_to_reduce args = None ∨ Py.nodes_to_reduce args = Some [] →
  Py.plot_nets nff pyvis fuel args h =
    (nff args ≫= Py.render pyvis (Py.interactive args)) h ∧
  ∀ r h1, nff args h = Py.Ret r h1 →
    Py.plot_nets nff pyvis fuel args h =
      Py.render pyvis (Py.interactive args) r h1 ∧
    (Py.interactive args = false ∨ pyvis = Py.Imported →
     ∃ d, Py.plot_nets nff pyvis fuel args h = Py.Ret d h1 ∧
          Py.display_graph d = r).
Proof.
  intros Hnone.
  assert (Htr : Py.truthy (Py.nodes_to_reduce args) = false).
  { by destruct Hnone as [-> | ->]. }
  assert (Heq : Py.plot_nets nff pyvis fuel args h =
                (nff args ≫= Py.render pyvis (Py.interactive args)) h).
  { unfold Py.plot_nets. rewrite Htr. unfold mbind, Py.M_bind.
    by destruct (nff args h). }
  split; [done|]. intros r h1 Hnff. rewrite Heq.
  erewrite bind_Ret; [|done]. split; [done|].
  unfold Py.render. intros [-> | ->].
  - by eexists.
  - destruct (Py.interactive args); by eexists.
Qed.

Lemma empty_reduction_set_skips_reduction_witness :
  Py.plot_nets Examples.builder Py.Imported 0 Examples.args_empty
               [Examples.chain] =
    (Examples.builder Examples.args_empty ≫=
     Py.render Py.Imported (Py.interactive Examples.args_empty))
      [Examples.chain] ∧
  ∀ r h1, Examples.builder Examples.args_empty [Examples.chain]
          = Py.Ret r h1 →
    Py.plot_nets Examples.builder Py.Imported 0 Examples.args_empty
                 [Examples.chain] =
      Py.render Py.Imported (Py.interactive Examples.args_empty) r h1 ∧
    (Py.interactive Examples.args_empty = false ∨ Py.Imported = Py.Imported →
     ∃ d, Py.plot_nets Examples.builder Py.Imported 0 Examples.args_empty
                       [Examples.chain] = Py.Ret d h1 ∧
          Py.display_graph d = r).
Proof.
  apply (empty_reduction_set_skips_reduction Examples.builder Py.Imported 0
           Examples.args_empty [Examples.chain]).
  right. reflexivity.
Defined.

(** C7.  In interactive mode, when importing [pyvis] raises a
    [ModuleNotFoundError] [e] (and the builder has returned a well-formed
    graph, so that the reduction ends), [plot_nets] raises one exception:
    a [UserWarning], a warning class, whose cause is [e] and whose message
    names [pyvis] and says to [pip install] it.  Nothing else is raised. *)
Theorem missing_pyvis_raises_user_warning nff fuel args h e r h1 G :
  Py.interactive args = true →
  Py.is_ModuleNotFoundError (Py.exn_class e) = true →
  nff args h = Py.Ret r h1 → h1 !! r = Some G →
  wf G → number_of_nodes G ≤ fuel →
  ∃ w h2,
    Py.plot_nets nff (Py.Failed e) fuel args h = Py.Raise w h2 ∧
    Py.exn_class w = Py.UserWarning ∧
    Py.is_Warning (Py.exn_class w) = true ∧
    Py.exn_cause w = Some e ∧
    substring_in "pyvis" (Py.exn_msg w) = true ∧
    substring_in "pip install" (Py.exn_msg w) = true.
Proof.
  intros Hint Hmnf Hnff Hr Hwf Hle.
  destruct (plot_nets_reduced nff (Py.Failed e) fuel args h r h1 G)
    as (r' & h2 & G' & -> & _); [done..|].
  exists (Py.ExcFrom Py.UserWarning Py.pyvis_hint e), h2.
  unfold Py.render. rewrite Hint, Hmnf. done.
Qed.

Lemma missing_pyvis_raises_user_warning_witness :
  ∃ w h2,
    Py.plot_nets Examples.builder (Py.Failed Examples.no_pyvis) 4
                 Examples.args_interactive [Examples.chain]
      = Py.Raise w h2 ∧
    Py.exn_class w = Py.UserWarning ∧
    Py.is_Warning (Py.exn_class w) = true ∧
    Py.exn_cause w = Some Examples.no_pyvis ∧
    substring_in "pyvis" (Py.exn_msg w) = true ∧
    substring_in "pip install" (Py.exn_msg w) = true.
Proof.
  apply (missing_pyvis_raises_user_warning Examples.builder 4
           Examples.args_interactive [Examples.chain] Examples.no_pyvis
           0 [Examples.chain] Examples.chain).
  - reflexivity.
  - reflexivity.
  - reflexivity.
  - reflexivity.
  - by_compute.
  - vm_compute. lia.
Defined.

(** C9.  In interactive mode with [pyvis] imported (and the builder
    having returned a well-formed graph), [plot_nets] shows the reduced
    graph through a [Network] made with [select_menu=True] and
    [filter_menu=True], under the name ["connectivity.html"]: a bare file
    name, so the file lands in the working directory, and the same for
    every value of every argument. *)
Theorem interactive_output_is_connectivity_html nff fuel args h r h1 G :
  Py.interactive args = true →
  nff args h = Py.Ret r h1 → h1 !! r = Some G →
  wf G → number_of_nodes G ≤ fuel →
  ∃ r' h2 G',
    Py.plot_nets nff Py.Imported fuel args h =
      Py.Ret (Py.Html true true true r' "connectivity.html") h2 ∧
    substring_in "/" "connectivity.html" = false ∧
    h2 !! r' = Some G' ∧
    if Py.truthy (Py.nodes_to_reduce args)
    then ∃ k, reduction_loop fuel (default [] (Py.nodes_to_reduce args)) G
              = Some (k, G')
    else r' = r ∧ h2 = h1 ∧ G' = G.
Proof.
  intros Hint Hnff Hr Hwf Hle.
  destruct (plot_nets_reduced nff Py.Imported fuel args h r h1 G)
    as (r' & h2 & G' & -> & Hr' & Hred); [done..|].
  exists r', h2, G'. unfold Py.render. rewrite Hint. done.
Qed.

Lemma interactive_output_is_connectivity_html_witness :
  ∃ r' h2 G',
    Py.plot_nets Examples.builder Py.Imported 4 Examples.args_interactive
                 [Examples.chain] =
      Py.Ret (Py.Html true true true r' "connectivity.html") h2 ∧
    substring_in "/" "connectivity.html" = false ∧
    h2 !! r' = Some G' ∧
    if Py.truthy (Py.nodes_to_reduce Examples.args_interactive)
    then ∃ k, reduction_loop 4
                (default [] (Py.nodes_to_reduce Examples.args_interactive))
                Examples.chain = Some (k, G')
    else r' = 0 ∧ h2 = [Examples.chain] ∧ G' = Examples.chain.
Proof.
  apply (interactive_output_is_connectivity_html Examples.builder 4
           Examples.args_interactive [Examples.chain] 0 [Examples.chain]
           Examples.chain).
  - reflexivity.
  - reflexivity.
  - reflexivity.
  - by_compute.
  - vm_compute. lia.
Defined.

End plot_nets_theorems.

(** ** More about the reduction: what it keeps *)

Section reduction_keeps.
Implicit Types (G H : Graph) (u v x y n a b : string) (ntr : list string).

(** What the loop returns on a well-formed graph, with the induction
    principle along its passes ready for use. *)
Lemma reduction_loop_run ntr G :
  wf G →
  ∃ k G',
    (∀ fuel, number_of_nodes G ≤ fuel →
             reduction_loop fuel ntr G = Some (k, G')) ∧
    wf G' ∧
    ∀ P : nat → Graph → Prop,
      (any_removal ntr G' = false → wf G' → P 0 G') →
      (∀ k H n, wf H → selected ntr H = Some n →
                nodes G' ⊆ nodes (iteration ntr H) →
                P k (iteration ntr H) → P (S k) H) →
      P k G.
Proof.
  intros Hwf. destruct (reduction_loop_total ntr G Hwf) as (k & G' & Hk & Hl).
  exists k, G'. split; [intros fuel Hle; apply Hl; lia|].
  specialize (Hl k (le_n k)).
  destruct (reduction_loop_result _ _ _ _ _ Hwf Hl) as (HwfG' & _).
  split; [done|]. intros P Hstop Hstep.
  cut (nodes G' ⊆ nodes G ∧ P k G); [by intros [_ ?]|].
  refine (reduction_loop_ind (λ k G, nodes G' ⊆ nodes G ∧ P k G)
            ntr G' _ _ k k G Hwf Hl).
  - intros. split; [done|]. by apply Hstop.
  - clear -Hstep. intros k H HwfH Hany [Hsub HP].
    apply any_removal_selected in Hany as [n Hn]. split.
    + intros x Hx. apply Hsub in Hx.
      rewrite (iteration_nodes ntr H n) in Hx by done.
      by apply list_elem_of_filter in Hx as [_ ?].
    + by apply (Hstep k H n).
Qed.

Lemma filter_all_true {A} (P : A → Prop) `{!∀ z : A, Decision (P z)}
    (l : list A) :
  (∀ z : A, z ∈ l → P z) → filter P l = l.
Proof.
  induction l as [|c l IH]; intros Hall; [done|].
  rewrite filter_cons_True by (apply Hall; left).
  f_equal. apply IH. intros z Hz. apply Hall. by right.
Qed.

(** X1.  The loop adds no node and keeps the order of the nodes it leaves:
    the node list of the result is the node list of the input with the
    removed nodes filtered out, so a sublist of it, without repetition. *)
Theorem reduction_keeps_node_order ntr G :
  wf G →
  ∃ k G',
    (∀ fuel, number_of_nodes G ≤ fuel →
             reduction_loop fuel ntr G = Some (k, G')) ∧
    nodes G' = filter (λ x, x ∈ nodes G') (nodes G) ∧
    nodes G' `sublist_of` nodes G ∧ NoDup (nodes G').
Proof.
  intros Hwf.
  destruct (reduction_loop_run ntr G Hwf) as (k & G' & Hl & HwfG' & Hind).
  exists k, G'. split; [done|].
  assert (Heq : nodes G' = filter (λ x, x ∈ nodes G') (nodes G)).
  { apply (Hind (λ _ G, nodes G' = filter (λ x, x ∈ nodes G') (nodes G))).
    - intros _ _. symmetry. by apply filter_all_true.
    - intros _ H n HwfH Hsel Hsub IH.
      rewrite (iteration_nodes ntr H n) in IH, Hsub by done.
      rewrite list_filter_filter_l in IH; [done|].
      intros x Hx. by apply Hsub, list_elem_of_filter in Hx as [? _]. }
  split_and!; [done| |by apply wf_NoDup_nodes].
  rewrite Heq at 1. apply sublist_filter.
Qed.

Lemma reduction_keeps_node_order_witness :
  ∃ k G',
    (∀ fuel, number_of_nodes Examples.kite ≤ fuel →
             reduction_loop fuel ["waveguide"] Examples.kite = Some (k, G')) ∧
    nodes G' = filter (λ x, x ∈ nodes G') (nodes Examples.kite) ∧
    nodes G' `sublist_of` nodes Examples.kite ∧ NoDup (nodes G').
Proof.
  apply (reduction_keeps_node_order ["waveguide"] Examples.kite). by_compute.
Defined.

(** X2.  The loop deletes no edge between two nodes that it keeps: an edge
    of the input whose two ends are in the result is an edge of the
    result. *)
Theorem reduction_keeps_edges_of_kept_nodes ntr G :
  wf G →
  ∃ k G',
    (∀ fuel, number_of_nodes G ≤ fuel →
             reduction_loop fuel ntr G = Some (k, G')) ∧
    ∀ u v, u ∈ nodes G' → v ∈ nodes G' → v ∈ adj G u → v ∈ adj G' u.
Proof.
  intros Hwf.
  destruct (reduction_loop_run ntr G Hwf) as (k & G' & Hl & HwfG' & Hind).
  exists k, G'. split; [done|].
  apply (Hind (λ _ G, ∀ u v, u ∈ nodes G' → v ∈ nodes G' →
                             v ∈ adj G u → v ∈ adj G' u)); [done|].
  intros _ H n HwfH Hsel Hsub IH u v Hu Hv Huv.
  apply IH; [done..|].
  destruct (iteration_spec ntr H n HwfH Hsel) as (_ & Hnodes & Hadj).
  apply Hsub in Hu, Hv. rewrite Hnodes, list_elem_of_filter in Hu, Hv.
  apply Hadj. tauto.
Qed.

Lemma reduction_keeps_edges_of_kept_nodes_witness :
  ∃ k G',
    (∀ fuel, number_of_nodes Examples.triangle ≤ fuel →
             reduction_loop fuel ["waveguide"] Examples.triangle
             = Some (k, G')) ∧
    ∀ u v, u ∈ nodes G' → v ∈ nodes G' →
           v ∈ adj Examples.triangle u → v ∈ adj G' u.
Proof.
  apply (reduction_keeps_edges_of_kept_nodes ["waveguide"] Examples.triangle).
  by_compute.
Defined.

(** *** Connectivity *)

Lemma iteration_connected ntr G n u v :
  wf G → selected ntr G = Some n → u ≠ n → v ≠ n →
  connected G u v ↔ connected (iteration ntr G) u v.
Proof.
  intros Hwf Hsel Hu Hv.
  destruct (iteration_spec ntr G n Hwf Hsel) as (_ & _ & Hadj).
  unfold connected. split.
  - intros Hc.
    cut ((u ≠ n → rtc (λ x y, y ∈ adj (iteration ntr G) x) u v) ∧
         (u = n → ∀ a, a ∈ adj G n → a ≠ n →
                  rtc (λ x y, y ∈ adj (iteration ntr G) x) a v));
      [by intros [H1 _]; apply H1|].
    clear Hu. induction Hc as [x|x y z Hxy Hyz IH].
    + split; [done|]. by intros ->.
    + specialize (IH Hv). destruct IH as [IH1 IH2]. split.
      * intros Hx. destruct (decide (y = n)) as [->|Hy].
        -- apply IH2; [done| |done]. by apply wf_sym.
        -- eapply rtc_l; [|by apply IH1]. apply Hadj. tauto.
      * intros -> a Ha Han. destruct (decide (y = n)) as [->|Hy].
        -- by apply IH2.
        -- destruct (decide (a = y)) as [->|Hay]; [by apply IH1|].
           eapply rtc_l; [|by apply IH1]. apply Hadj. tauto.
  - clear Hu Hv. intros Hc. induction Hc as [x|x y z Hxy Hyz IH]; [done|].
    apply Hadj in Hxy as (Hx & Hy & [Hxy|(Hxn & Hyn & _)]).
    + by eapply rtc_l.
    + eapply rtc_l; [by apply wf_sym, Hxn|]. by eapply rtc_l.
Qed.

(** X3.  The loop keeps the connectivity of the nodes it keeps: two nodes
    of the result are joined by a path in the result exactly when they
    are joined by a path in the input. *)
Theorem reduction_keeps_connectivity ntr G :
  wf G →
  ∃ k G',
    (∀ fuel, number_of_nodes G ≤ fuel →
             reduction_loop fuel ntr G = Some (k, G')) ∧
    ∀ u v, u ∈ nodes G' → v ∈ nodes G' →
           (connected G u v ↔ connected G' u v).
Proof.
  intros Hwf.
  destruct (reduction_loop_run ntr G Hwf) as (k & G' & Hl & HwfG' & Hind).
  exists k, G'. split; [done|].
  apply (Hind (λ _ G, ∀ u v, u ∈ nodes G' → v ∈ nodes G' →
                             (connected G u v ↔ connected G' u v)));
    [done|].
  intros _ H n HwfH Hsel Hsub IH u v Hu Hv.
  rewrite <- (IH u v Hu Hv). apply (iteration_connected ntr H n); [done..| |].
  - apply Hsub in Hu. rewrite (iteration_nodes ntr H n) in Hu by done.
    by apply list_elem_of_filter in Hu as [? _].
  - apply Hsub in Hv. rewrite (iteration_nodes ntr H n) in Hv by done.
    by apply list_elem_of_filter in Hv as [? _].
Qed.

Lemma reduction_keeps_connectivity_witness :
  ∃ k G',
    (∀ fuel, number_of_nodes Examples.chain ≤ fuel →
             reduction_loop fuel ["waveguide"] Examples.chain = Some (k, G')) ∧
    ∀ u v, u ∈ nodes G' → v ∈ nodes G' →
           (connected Examples.chain u v ↔ connected G' u v).
Proof.
  apply (reduction_keeps_connectivity ["waveguide"] Examples.chain).
  by_compute.
Defined.

(** *** Degrees *)

Lemma iteration_self_loop ntr G n v :
  wf G → selected ntr G = Some n → v ≠ n →
  v ∈ adj (iteration ntr G) v ↔ v ∈ adj G v.
Proof.
  intros Hwf Hsel Hv.
  destruct (iteration_spec ntr G n Hwf Hsel) as (_ & _ & Hadj).
  rewrite Hadj. tauto.
Qed.

Lemma iteration_degree_le ntr G n v :
  wf G → selected ntr G = Some n → v ≠ n →
  degree_at (iteration ntr G) v ≤ degree_at G v.
Proof.
  intros Hwf Hsel Hv.
  destruct (iteration_spec ntr G n Hwf Hsel) as (Hwf1 & _ & Hadj).
  destruct (selected_Some ntr G n) as (_ & Hdeg & _);
    [by apply wf_NoDup_nodes|done|].
  pose proof (iteration_self_loop ntr G n v Hwf Hsel Hv) as Hself.
  assert (Hlen : length (adj (iteration ntr G) v) ≤ length (adj G v)).
  { destruct (degree2_cases G n Hwf Hdeg) as [Hl|(a & b & Hl & Hab & Ha & Hb)].
    - apply submseteq_length, NoDup_submseteq; [by apply wf_NoDup_adj|].
      intros y. rewrite Hadj, Hl, !list_elem_of_singleton.
      intros (_ & _ & [?|(? & _)]); done.
    - assert (∃ o, ∀ y, y ∈ adj G n → v ∈ adj G n → v ≠ y → y = o) as [o Ho].
      { destruct (decide (v = a)) as [->|Hva].
        - exists b. intros y. rewrite Hl, !elem_of_cons, !elem_of_nil.
          intuition congruence.
        - exists a. intros y. rewrite Hl, !elem_of_cons, !elem_of_nil.
          intuition congruence. }
      set (f := λ y, if decide (y = n) then o else y).
      rewrite <- (length_fmap f (adj G v)).
      apply submseteq_length, NoDup_submseteq; [by apply wf_NoDup_adj|].
      intros y. rewrite Hadj, list_elem_of_fmap.
      intros (_ & Hyn & [Hy|(Hvn & Hy & Hne)]).
      + exists y. split; [|done]. unfold f. by rewrite decide_False.
      + exists n. split; [|by apply wf_sym].
        unfold f. rewrite decide_True by done. by apply Ho. }
  unfold degree_at, degree_of.
  destruct (decide (v ∈ adj (iteration ntr G) v)),
           (decide (v ∈ adj G v)); try lia; tauto.
Qed.

(** X4.  No pass raises a degree: every node of the result has at most
    the degree it had in the input.  So a node of degree 0 or 1 is never
    removed, whether or not its label matches. *)
Theorem reduction_never_raises_degree ntr G :
  wf G →
  ∃ k G',
    (∀ fuel, number_of_nodes G ≤ fuel →
             reduction_loop fuel ntr G = Some (k, G')) ∧
    (∀ v, v ∈ nodes G' → degree_at G' v ≤ degree_at G v) ∧
    (∀ v, v ∈ nodes G → degree_at G v < 2 → v ∈ nodes G').
Proof.
  intros Hwf.
  destruct (reduction_loop_run ntr G Hwf) as (k & G' & Hl & HwfG' & Hind).
  exists k, G'. split; [done|].
  apply (Hind (λ _ G,
    (∀ v, v ∈ nodes G' → degree_at G' v ≤ degree_at G v) ∧
    (∀ v, v ∈ nodes G → degree_at G v < 2 → v ∈ nodes G'))); [done|].
  intros _ H n HwfH Hsel Hsub [IH1 IH2].
  pose proof (iteration_nodes ntr H n HwfH Hsel) as Hnodes.
  split.
  - intros v Hv. etrans; [by apply IH1|].
    apply (iteration_degree_le ntr H n); [done..|].
    apply Hsub in Hv. rewrite Hnodes in Hv.
    by apply list_elem_of_filter in Hv as [? _].
  - intros v Hv Hdeg.
    destruct (selected_Some ntr H n) as (_ & Hn2 & _);
      [by apply wf_NoDup_nodes|done|].
    assert (Hvn : v ≠ n) by (intros ->; lia).
    apply IH2.
    + rewrite Hnodes. by apply list_elem_of_filter.
    + pose proof (iteration_degree_le ntr H n v HwfH Hsel Hvn). lia.
Qed.

Lemma reduction_never_raises_degree_witness :
  ∃ k G',
    (∀ fuel, number_of_nodes Examples.triangle ≤ fuel →
             reduction_loop fuel ["waveguide"] Examples.triangle
             = Some (k, G')) ∧
    (∀ v, v ∈ nodes G' → degree_at G' v ≤ degree_at Examples.triangle v) ∧
    (∀ v, v ∈ nodes Examples.triangle →
          degree_at Examples.triangle v < 2 → v ∈ nodes G').
Proof.
  apply (reduction_never_raises_degree ["waveguide"] Examples.triangle).
  by_compute.
Defined.

(** X5.  A pass is local: a node that is neither the removed node nor one
    of its neighbours has the same neighbours, so the same degree, after
    the pass as before. *)
Theorem pass_changes_only_the_neighbourhood ntr G n x :
  wf G → selected ntr G = Some n → x ≠ n → x ∉ adj G n →
  (∀ y, y ∈ adj (iteration ntr G) x ↔ y ∈ adj G x) ∧
  degree_at (iteration ntr G) x = degree_at G x.
Proof.
  intros Hwf Hsel Hx Hxn.
  destruct (iteration_spec ntr G n Hwf Hsel) as (Hwf1 & _ & Hadj).
  assert (Hmem : ∀ y, y ∈ adj (iteration ntr G) x ↔ y ∈ adj G x).
  { intros y. rewrite Hadj. split; [tauto|]. intros Hy.
    split_and!; [done| |by left]. intros ->. by apply Hxn, wf_sym. }
  split; [done|].
  by apply degree_at_members; [|apply wf_NoDup_adj|].
Qed.

Lemma pass_changes_only_the_neighbourhood_witness :
  (∀ y, y ∈ adj (iteration ["waveguide"] Examples.chain) "B" ↔
        y ∈ adj Examples.chain "B") ∧
  degree_at (iteration ["waveguide"] Examples.chain) "B" =
  degree_at Examples.chain "B".
Proof.
  apply (pass_changes_only_the_neighbourhood ["waveguide"] Examples.chain
           "waveguide_X" "B").
  - by_compute.
  - reflexivity.
  - by_compute.
  - by_compute.
Defined.

(** *** How many passes *)

Lemma filter_filter_ne_length (P : string → Prop) `{!∀ z, Decision (P z)}
    (l : list string) n :
  NoDup l → n ∈ l → P n →
  S (length (filter P (filter (λ z, z ≠ n) l))) = length (filter P l).
Proof.
  intros Hnd Hn HP.
  rewrite <- (filter_ne_length (filter P l) n);
    [|by apply NoDup_filter|by apply list_elem_of_filter].
  f_equal. f_equal. rewrite !list_filter_filter.
  apply list_filter_iff. tauto.
Qed.

(** X6.  Every pass removes one matching node: the number of passes is
    the number of matching nodes of the input that the result lacks, so
    at most the number of matching nodes; when no label matches, no pass
    is made and the graph is returned as it is. *)
Theorem passes_count_removed_matching_nodes ntr G :
  wf G →
  ∃ k G',
    (∀ fuel, number_of_nodes G ≤ fuel →
             reduction_loop fuel ntr G = Some (k, G')) ∧
    k + length (matching ntr G') = length (matching ntr G) ∧
    (matching ntr G = [] → k = 0 ∧ G' = G).
Proof.
  intros Hwf.
  destruct (reduction_loop_run ntr G Hwf) as (k & G' & Hl & HwfG' & Hind).
  exists k, G'. split; [done|].
  assert (Hsum : k + length (matching ntr G') = length (matching ntr G) ∧
                 (k = 0 → G' = G)).
  { apply (Hind (λ k G,
      k + length (matching ntr G') = length (matching ntr G) ∧
      (k = 0 → G' = G))); [done|].
    intros k0 H n HwfH Hsel _ [IH _]. split; [|done].
    destruct (selected_Some ntr H n) as (Hn & _ & Hm);
      [by apply wf_NoDup_nodes|done|].
    unfold matching in *.
    rewrite (iteration_nodes ntr H n) in IH by done.
    rewrite <- (filter_filter_ne_length _ (nodes H) n);
      [lia|by apply wf_NoDup_nodes|done..]. }
  destruct Hsum as [Hsum H0]. split; [done|].
  intros Hnil. rewrite Hnil in Hsum. simpl in Hsum.
  assert (k = 0) by lia. auto.
Qed.

Lemma passes_count_removed_matching_nodes_witness :
  ∃ k G',
    (∀ fuel, number_of_nodes Examples.triangle ≤ fuel →
             reduction_loop fuel ["waveguide"] Examples.triangle
             = Some (k, G')) ∧
    k + length (matching ["waveguide"] G') =
      length (matching ["waveguide"] Examples.triangle) ∧
    (matching ["waveguide"] Examples.triangle = [] →
     k = 0 ∧ G' = Examples.triangle).
Proof.
  apply (passes_count_removed_matching_nodes ["waveguide"] Examples.triangle).
  by_compute.
Defined.

(** *** A ring of three *)

(** X7.  In a triangle with a matching node the loop makes exactly one
    pass: it removes the first matching node in node order and leaves the
    other two joined by one edge, each of degree 1, so neither is removed
    afterwards even when its label matches. *)
Theorem triangle_loses_one_node ntr G x y z :
  NoDup [x; y; z] →
  has_shape G [x; y; z] [(x, y); (y, z); (z, x)] →
  any_removal ntr G = true →
  ∃ n G',
    selected ntr G = Some n ∧
    (∀ fuel, 1 ≤ fuel → reduction_loop fuel ntr G = Some (1, G')) ∧
    nodes G' = filter (λ v, v ≠ n) (nodes G) ∧
    (∀ v, v ∈ nodes G' → degree_at G' v = 1) ∧
    (∀ u v, u ∈ nodes G' → v ∈ nodes G' → u ≠ v → v ∈ adj G' u).
Proof.
  intros Hnd (Hwf & Hn & He) Hany.
  assert (x ≠ y ∧ x ≠ z ∧ y ≠ z) as (Hxy & Hxz & Hyz).
  { apply NoDup_cons in Hnd as [H1 Hnd]. apply NoDup_cons in Hnd as [H2 _].
    revert H1 H2. rewrite ?elem_of_cons, ?elem_of_nil.
    intuition congruence. }
  pose proof Hany as [n Hsel]%any_removal_selected.
  destruct (iteration_spec ntr G n Hwf Hsel) as (Hwf1 & Hnodes & Hadj).
  destruct (selected_Some ntr G n) as (Hin & _ & _);
    [by apply wf_NoDup_nodes|done|].
  assert (Hadj1 : ∀ u v, u ∈ nodes (iteration ntr G) →
            (v ∈ adj (iteration ntr G) u ↔
             v ∈ nodes (iteration ntr G) ∧ u ≠ v)).
  { intros u v. rewrite Hnodes, !list_elem_of_filter, Hadj, !He, !Hn.
    apply Hn in Hin. rewrite ?elem_of_cons, ?elem_of_nil in Hin.
    rewrite ?elem_of_cons, ?elem_of_nil, ?pair_equal_spec.
    destruct Hin as [->|[->|[->|[]]]];
      intuition (subst; try congruence). }
  assert (Hdeg1 : ∀ v, v ∈ nodes (iteration ntr G) →
            degree_at (iteration ntr G) v = 1).
  { intros v Hv.
    assert (∃ w, ∀ u, u ∈ nodes (iteration ntr G) ∧ v ≠ u ↔ u ∈ [w])
      as [w Hw].
    { revert Hv. rewrite Hnodes, list_elem_of_filter, Hn.
      apply Hn in Hin. revert Hin.
      rewrite ?elem_of_cons, ?elem_of_nil. intros Hin [Hvn Hv].
      assert (∃ w, w ≠ n ∧ w ≠ v ∧ (w = x ∨ w = y ∨ w = z)) as (w & ? & ? & ?).
      { destruct Hin as [->|[->|[->|[]]]], Hv as [->|[->|[->|[]]]];
          try done; eauto 10. }
      exists w. intros u.
      rewrite list_elem_of_filter, Hn, ?elem_of_cons, ?elem_of_nil.
      intuition (subst; try congruence). }
    rewrite (degree_at_members _ v [w]); [|done|apply NoDup_singleton|].
    - unfold degree_of. rewrite decide_False; [done|].
      intros Hvw. apply Hw in Hvw as [_ ?]. done.
    - intros u. by rewrite Hadj1, Hw. }
  exists n, (iteration ntr G). split_and!; [done| |done|done|].
  - intros fuel Hle. apply (reduction_loop_fuel 1); [|done].
    rewrite reduction_loop_step by done. rewrite reduction_loop_stop; [done|].
    destruct (any_removal ntr (iteration ntr G)) eqn:Hany1; [|done].
    apply any_removal_selected in Hany1 as [m Hm].
    destruct (selected_Some ntr (iteration ntr G) m) as (Hmin & Hm2 & _);
      [by apply wf_NoDup_nodes|done|].
    rewrite Hdeg1 in Hm2; done.
  - intros u v Hu Hv Huv. by apply Hadj1.
Qed.

Lemma triangle_loses_one_node_witness :
  ∃ n G',
    selected ["waveguide"] Examples.triangle = Some n ∧
    (∀ fuel, 1 ≤ fuel →
       reduction_loop fuel ["waveguide"] Examples.triangle = Some (1, G')) ∧
    nodes G' = filter (λ v, v ≠ n) (nodes Examples.triangle) ∧
    (∀ v, v ∈ nodes G' → degree_at G' v = 1) ∧
    (∀ u v, u ∈ nodes G' → v ∈ nodes G' → u ≠ v → v ∈ adj G' u).
Proof.
  apply (triangle_loses_one_node ["waveguide"] Examples.triangle
           "waveguide_m" "waveguide_n" "pad").
  - by_compute.
  - split_and!.
    + by_compute.
    + intros v. change (nodes Examples.triangle)
        with ["waveguide_m"; "waveguide_n"; "pad"].
      rewrite !elem_of_cons. tauto.
    + intros u v. split.
      * intros Hv. pose proof (adj_elem_node _ _ _ Hv) as Hu.
        change (nodes Examples.triangle)
          with ["waveguide_m"; "waveguide_n"; "pad"] in Hu.
        repeat (apply elem_of_cons in Hu as [->|Hu];
          [vm_compute adj in Hv;
           repeat (apply elem_of_cons in Hv as [->|Hv]; [by_compute|]);
           by apply elem_of_nil in Hv|]).
        by apply elem_of_nil in Hu.
      * intros [He|He];
          repeat (apply elem_of_cons in He as [[= -> ->]|He]; [by_compute|]);
          by apply elem_of_nil in He.
  - reflexivity.
Defined.

(** *** Edges *)

Lemma degree_sum_nodes G :
  NoDup (nodes G) →
  foldr (λ nd acc, nd.2 + acc) 0 (degree G) =
  foldr (λ v acc, degree_at G v + acc) 0 (nodes G).
Proof.
  intros Hnd. rewrite (graph_eta G Hnd) at 1. clear Hnd.
  unfold degree. induction (nodes G) as [|v l IH]; [done|].
  simpl. by rewrite IH.
Qed.

Lemma sum_filter_ne (f : string → nat) (l : list string) n :
  NoDup l → n ∈ l →
  foldr (λ v acc, f v + acc) 0 (filter (λ z, z ≠ n) l) + f n =
  foldr (λ v acc, f v + acc) 0 l.
Proof.
  induction l as [|c l IH]; intros Hnd Hn; [by apply elem_of_nil in Hn|].
  apply NoDup_cons in Hnd as [Hc Hnd]. rewrite filter_cons.
  destruct (decide (c ≠ n)) as [Hne|Heq]; simpl.
  - apply elem_of_cons in Hn as [|Hn]; [congruence|].
    specialize (IH Hnd Hn). lia.
  - apply dec_stable in Heq. subst c.
    pose proof (del_key_notin n l Hc) as Heq. unfold del_key in Heq.
    rewrite Heq. lia.
Qed.

Lemma sum_le (f g : string → nat) (l : list string) :
  (∀ v, v ∈ l → f v ≤ g v) →
  foldr (λ v acc, f v + acc) 0 l ≤ foldr (λ v acc, g v + acc) 0 l.
Proof.
  induction l as [|c l IH]; intros Hle; [done|]. simpl.
  pose proof (Hle c (list_elem_of_here _ _)).
  assert (foldr (λ v acc, f v + acc) 0 l ≤ foldr (λ v acc, g v + acc) 0 l).
  { apply IH. intros v Hv. apply Hle. by right. }
  lia.
Qed.

Lemma iteration_number_of_edges ntr G :
  wf G → any_removal ntr G = true →
  S (number_of_edges (iteration ntr G)) ≤ number_of_edges G.
Proof.
  intros Hwf [n Hsel]%any_removal_selected.
  destruct (iteration_spec ntr G n Hwf Hsel) as (Hwf1 & Hnodes & _).
  destruct (selected_Some ntr G n) as (Hn & Hdeg & _);
    [by apply wf_NoDup_nodes|done|].
  unfold number_of_edges.
  rewrite !degree_sum_nodes by by apply wf_NoDup_nodes.
  rewrite Hnodes.
  pose proof (sum_filter_ne (degree_at G) (nodes G) n
                (wf_NoDup_nodes _ Hwf) Hn) as Hsum.
  assert (Hle : foldr (λ v acc, degree_at (iteration ntr G) v + acc) 0
                      (filter (λ z, z ≠ n) (nodes G)) ≤
                foldr (λ v acc, degree_at G v + acc) 0
                      (filter (λ z, z ≠ n) (nodes G))).
  { apply sum_le. intros v [Hv _]%list_elem_of_filter.
    by apply (iteration_degree_le ntr G n). }
  rewrite !Nat.div2_div. rewrite Hdeg in Hsum.
  apply Nat.Div0.div_le_mono with (c := 2) in Hle.
  revert Hle Hsum.
  generalize (foldr (λ v acc, degree_at (iteration ntr G) v + acc) 0
                    (filter (λ z, z ≠ n) (nodes G))).
  generalize (foldr (λ v acc, degree_at G v + acc) 0
                    (filter (λ z, z ≠ n) (nodes G))).
  intros s1 s2 Hle <-.
  replace (s1 + 2) with (s1 + 1 * 2) by lia.
  rewrite Nat.div_add by done. lia.
Qed.

(** X14.  Every pass lowers the number of edges by at least one (it takes
    away the two edges of the removed node, or its self-loop, and adds at
    most one), so after [k] passes the result has at most the input's
    edge count less [k]. *)
Theorem reduction_lowers_edge_count ntr G :
  wf G →
  ∃ k G',
    (∀ fuel, number_of_nodes G ≤ fuel →
             reduction_loop fuel ntr G = Some (k, G')) ∧
    k + number_of_edges G' ≤ number_of_edges G ∧
    (∀ H, wf H → any_removal ntr H = true →
          number_of_edges (iteration ntr H) < number_of_edges H).
Proof.
  intros Hwf.
  destruct (reduction_loop_run ntr G Hwf) as (k & G' & Hl & HwfG' & Hind).
  exists k, G'. split; [done|]. split.
  - apply (Hind (λ k G, k + number_of_edges G' ≤ number_of_edges G));
      [done|].
    intros k0 H n HwfH Hsel _ IH.
    assert (Hany : any_removal ntr H = true).
    { apply any_removal_selected. by rewrite Hsel. }
    pose proof (iteration_number_of_edges ntr H HwfH Hany). lia.
  - intros H HwfH Hany.
    pose proof (iteration_number_of_edges ntr H HwfH Hany). lia.
Qed.

Lemma reduction_lowers_edge_count_witness :
  ∃ k G',
    (∀ fuel, number_of_nodes Examples.kite ≤ fuel →
             reduction_loop fuel ["waveguide"] Examples.kite = Some (k, G')) ∧
    k + number_of_edges G' ≤ number_of_edges Examples.kite ∧
    (∀ H, wf H → any_removal ["waveguide"] H = true →
          number_of_edges (iteration ["waveguide"] H) < number_of_edges H).
Proof.
  apply (reduction_lowers_edge_count ["waveguide"] Examples.kite).
  by_compute.
Defined.

(** *** Rewiring, seen from the end of the loop *)

Lemma reduction_keeps_unmatched ntr G :
  wf G →
  ∃ k G',
    (∀ fuel, number_of_nodes G ≤ fuel →
             reduction_loop fuel ntr G = Some (k, G')) ∧
    ∀ v, v ∈ nodes G → matches ntr v = false → v ∈ nodes G'.
Proof.
  intros Hwf.
  destruct (reduction_loop_run ntr G Hwf) as (k & G' & Hl & HwfG' & Hind).
  exists k, G'. split; [done|].
  apply (Hind (λ _ G, ∀ v, v ∈ nodes G → matches ntr v = false →
                           v ∈ nodes G')); [done|].
  intros _ H m HwfH Hsel _ IH v Hv Hm.
  apply IH; [|done]. apply iteration_keeps; auto.
Qed.

(** C1, amended.  If [n] matches the filter and has degree 2 with the two
    neighbours [a] and [b], and [a] and [b] are themselves still in the
    graph when the loop ends (as they are whenever neither of them
    matches the filter), then the graph the loop ends with has no [n] and
    has the edge [a - b], entered once in each of the two neighbour
    dicts.  The node [n] need not be the first one removed. *)
Theorem rewiring_of_reducible_node ntr G n a b :
  wf G → matches ntr n = true → degree_at G n = 2 →
  a ∈ adj G n → b ∈ adj G n → a ≠ b →
  ∃ k G',
    (∀ fuel, number_of_nodes G ≤ fuel →
             reduction_loop fuel ntr G = Some (k, G')) ∧
    (a ∈ nodes G' → b ∈ nodes G' →
     (n ∉ nodes G') ∧ b ∈ adj G' a ∧ a ∈ adj G' b ∧
     NoDup (adj G' a) ∧ NoDup (adj G' b)) ∧
    (matches ntr a = false → matches ntr b = false →
     (n ∉ nodes G') ∧ b ∈ adj G' a ∧ a ∈ adj G' b ∧
     NoDup (adj G' a) ∧ NoDup (adj G' b)).
Proof.
  intros Hwf Hm Hdeg Ha Hb Hab.
  assert (a ≠ n ∧ b ≠ n ∧ ∀ y, y ∈ adj G n ↔ y = a ∨ y = b)
    as (Han & Hbn & Hadjn).
  { destruct (degree2_cases G n Hwf Hdeg) as [Hl|(a' & b' & Hl & ? & ? & ?)];
      rewrite Hl in Ha, Hb |- *.
    - apply list_elem_of_singleton in Ha, Hb. congruence.
    - rewrite !elem_of_cons, !elem_of_nil in Ha, Hb.
      split_and!; [intuition congruence..|].
      intros y. rewrite !elem_of_cons, !elem_of_nil. intuition congruence. }
  destruct (reduction_loop_run ntr G Hwf) as (k & G' & Hl & HwfG' & Hind).
  exists k, G'. split; [done|].
  assert (Hkept : a ∈ nodes G' → b ∈ nodes G' →
            (n ∉ nodes G') ∧ b ∈ adj G' a ∧ a ∈ adj G' b ∧
            NoDup (adj G' a) ∧ NoDup (adj G' b)).
  { intros HaG' HbG'.
    cut ((n ∉ nodes G') ∧ b ∈ adj G' a).
    { intros [? ?]. split_and!; [done..|by apply wf_sym|
        by apply wf_NoDup_adj|by apply wf_NoDup_adj]. }
    cut ((n ∈ nodes G ∧ (∀ y, y ∈ adj G n ↔ y = a ∨ y = b)) ∨
         ((n ∉ nodes G) ∧ b ∈ adj G a) →
         (n ∉ nodes G') ∧ b ∈ adj G' a).
    { intros Hcut. apply Hcut. left. split; [|done].
      by eapply adj_elem_node. }
    apply (Hind (λ _ H,
      (n ∈ nodes H ∧ (∀ y, y ∈ adj H n ↔ y = a ∨ y = b)) ∨
      ((n ∉ nodes H) ∧ b ∈ adj H a) →
      (n ∉ nodes G') ∧ b ∈ adj G' a)).
    - intros Hany _ [[Hn Hadj]|?]; [|done].
      destruct (any_removal_false ntr G' n Hany Hn). split; [|done].
      rewrite (degree_at_members G' n [a; b]); [|done| |].
      + unfold degree_of. rewrite decide_False; [done|].
        rewrite !elem_of_cons, elem_of_nil. intuition congruence.
      + repeat constructor; rewrite ?elem_of_cons, ?elem_of_nil;
          intuition congruence.
      + intros y. rewrite Hadj, !elem_of_cons, elem_of_nil. tauto.
    - intros _ H m HwfH Hsel Hsub IH Hst. apply IH. clear IH.
      destruct (iteration_spec ntr H m HwfH Hsel) as (_ & Hnodes & Hadj).
      assert (a ≠ m ∧ b ≠ m) as [Ham Hbm].
      { apply Hsub in HaG', HbG'.
        rewrite Hnodes, list_elem_of_filter in HaG', HbG'. tauto. }
      destruct Hst as [[Hn HadjH]|[Hn Hedge]].
      + destruct (decide (m = n)) as [->|Hmn].
        * right. split.
          -- rewrite Hnodes, list_elem_of_filter. tauto.
          -- apply Hadj. rewrite !HadjH. tauto.
        * left. split.
          -- rewrite Hnodes, list_elem_of_filter. split; [congruence|done].
          -- intros y. rewrite Hadj, HadjH. split.
             ++ intros (_ & _ & [?|(Hnm & _)]); [done|].
                apply (wf_sym _ _ _ HwfH), HadjH in Hnm.
                intuition congruence.
             ++ intros Hy. split_and!; [congruence| |by left].
                intuition congruence.
      + right. split.
        * rewrite Hnodes, list_elem_of_filter. tauto.
        * apply Hadj. tauto. }
  split; [done|]. intros Hma Hmb.
  destruct (reduction_keeps_unmatched ntr G Hwf) as (k1 & G1 & Hl1 & Hkeep).
  assert (G1 = G') as ->.
  { specialize (Hl _ (le_n _)). specialize (Hl1 _ (le_n _)). congruence. }
  apply Hkept; (apply Hkeep; [by eapply wf_closed|done]).
Qed.

Lemma rewiring_of_reducible_node_witness :
  ∃ k G',
    (∀ fuel, number_of_nodes Examples.two_links ≤ fuel →
             reduction_loop fuel ["waveguide"] Examples.two_links
             = Some (k, G')) ∧
    ("waveguide_2" ∉ nodes G') ∧ "s" ∈ adj G' "r" ∧ "r" ∈ adj G' "s" ∧
    NoDup (adj G' "r") ∧ NoDup (adj G' "s").
Proof.
  destruct (rewiring_of_reducible_node ["waveguide"] Examples.two_links
              "waveguide_2" "r" "s") as (k & G' & Hl & _ & Hunmatched).
  - by_compute.
  - reflexivity.
  - reflexivity.
  - by_compute.
  - by_compute.
  - by_compute.
  - exists k, G'. split; [exact Hl|]. apply Hunmatched; reflexivity.
Defined.

(** *** The filter *)

Lemma startswith_spec node e :
  startswith node e = true ↔ ∃ post, node = e +:+ post.
Proof.
  revert node. induction e as [|c e IH]; intros node.
  - split; [|by destruct node]. intros _. by exists node.
  - destruct node as [|d node]; simpl.
    + split; [done|]. by intros [post ?].
    + case_decide as Hcd.
      * subst d. rewrite IH. split.
        -- intros [post ->]. by exists post.
        -- intros [post [= ->]]. by exists post.
      * split; [done|]. intros [post [= ? _]]. congruence.
Qed.

Lemma substring_in_spec e node :
  substring_in e node = true ↔ ∃ pre post, node = pre +:+ e +:+ post.
Proof.
  induction node as [|d node IH].
  - cbn [substring_in]. rewrite orb_false_r, startswith_spec. split.
    + intros [post ->]. by exists "", post.
    + intros (pre & post & Heq). destruct pre; [|done]. by exists post.
  - cbn [substring_in]. rewrite orb_true_iff, startswith_spec, IH. split.
    + intros [[post ->]|(pre & post & ->)].
      * by exists "", post.
      * by exists (String d pre), post.
    + intros (pre & post & Heq). destruct pre as [|c pre].
      * left. by exists post.
      * right. injection Heq as -> ->. by exists pre, post.
Qed.

(** X8.  [_removal_condition(node, degree)] holds exactly when the degree
    is 2 and the label can be split as [pre + e + post] for an element
    [e] of [nodes_to_reduce]: the match is by substring, anywhere in the
    label, and sensitive to case. *)
Theorem removal_condition_is_substring_match ntr node d :
  _removal_condition ntr node d = true ↔
  d = 2 ∧ ∃ e pre post, e ∈ ntr ∧ node = pre +:+ e +:+ post.
Proof.
  rewrite removal_condition_true. unfold matches.
  rewrite existsb_exists. split.
  - intros [-> (e & He & (pre & post & ->)%substring_in_spec)].
    split; [done|]. exists e, pre, post. by rewrite list_elem_of_In.
  - intros [-> (e & pre & post & He & ->)]. split; [done|].
    exists e. split; [by apply list_elem_of_In|].
    apply substring_in_spec. by exists pre, post.
Qed.

(** X9.  The empty string is a substring of every label: with [""] in
    [nodes_to_reduce] every node matches, and the loop ends in a graph
    without any node of degree 2. *)
Theorem empty_substring_matches_every_node ntr G :
  "" ∈ ntr → wf G →
  (∀ node, matches ntr node = true) ∧
  ∃ k G',
    (∀ fuel, number_of_nodes G ≤ fuel →
             reduction_loop fuel ntr G = Some (k, G')) ∧
    ∀ v, v ∈ nodes G' → degree_at G' v ≠ 2.
Proof.
  intros Hemp Hwf.
  assert (Hall : ∀ node, matches ntr node = true).
  { intros node. apply existsb_exists. exists "".
    split; [by apply list_elem_of_In|].
    apply substring_in_spec. by exists "", node. }
  split; [done|].
  destruct (reduction_loop_total ntr G Hwf) as (k & G' & Hk & Hl).
  exists k, G'. split; [intros fuel Hle; apply Hl; lia|].
  destruct (reduction_loop_result k ntr G k G') as (_ & Hany & _);
    [done|by apply Hl|].
  intros v Hv Hdeg. by apply (any_removal_false ntr G' v Hany Hv).
Qed.

Lemma empty_substring_matches_every_node_witness :
  (∀ node, matches [""] node = true) ∧
  ∃ k G',
    (∀ fuel, number_of_nodes Examples.kite ≤ fuel →
             reduction_loop fuel [""] Examples.kite = Some (k, G')) ∧
    ∀ v, v ∈ nodes G' → degree_at G' v ≠ 2.
Proof.
  apply (empty_substring_matches_every_node [""] Examples.kite).
  - by_compute.
  - by_compute.
Defined.

End reduction_keeps.

(** ** More about [plot_nets]: the other paths *)

Section plot_nets_paths.
Implicit Types (G : Graph) (h : Py.Heap) (r : Py.Ref) (ntr : list string).
Implicit Types (args : Py.Args) (e : Py.Exn).

(** X10.  In the static mode [pyvis] is never looked at: whatever the
    outcome of importing it would be, [plot_nets] raises nothing and draws
    the reduced graph with labels, node size 2000, colour lightpink, font
    size 12, on an 8 by 6 figure titled Connectivity; none of this depends
    on [include_labels] or any other argument. *)
Theorem static_mode_draws_without_pyvis nff pyvis fuel args h r h1 G :
  Py.interactive args = false →
  nff args h = Py.Ret r h1 → h1 !! r = Some G →
  wf G → number_of_nodes G ≤ fuel →
  ∃ r' h2 G',
    Py.plot_nets nff pyvis fuel args h =
      Py.Ret (Py.Figure (8, 6) r' true 2000 "lightpink" 12 "Connectivity")
             h2 ∧
    h2 !! r' = Some G' ∧
    if Py.truthy (Py.nodes_to_reduce args)
    then ∃ k, reduction_loop fuel (default [] (Py.nodes_to_reduce args)) G
              = Some (k, G')
    else r' = r ∧ h2 = h1 ∧ G' = G.
Proof.
  intros Hint Hnff Hr Hwf Hle.
  destruct (plot_nets_reduced nff pyvis fuel args h r h1 G)
    as (r' & h2 & G' & -> & Hr' & Hred); [done..|].
  exists r', h2, G'. unfold Py.render. rewrite Hint. done.
Qed.

Lemma static_mode_draws_without_pyvis_witness :
  ∃ r' h2 G',
    Py.plot_nets Examples.builder (Py.Failed Examples.no_pyvis) 4
                 Examples.args_empty [Examples.chain] =
      Py.Ret (Py.Figure (8, 6) r' true 2000 "lightpink" 12 "Connectivity")
             h2 ∧
    h2 !! r' = Some G' ∧
    if Py.truthy (Py.nodes_to_reduce Examples.args_empty)
    then ∃ k, reduction_loop 4
                (default [] (Py.nodes_to_reduce Examples.args_empty))
                Examples.chain = Some (k, G')
    else r' = 0 ∧ h2 = [Examples.chain] ∧ G' = Examples.chain.
Proof.
  apply (static_mode_draws_without_pyvis Examples.builder
           (Py.Failed Examples.no_pyvis) 4 Examples.args_empty
           [Examples.chain] 0 [Examples.chain] Examples.chain).
  - reflexivity.
  - reflexivity.
  - reflexivity.
  - by_compute.
  - vm_compute. lia.
Defined.

(** X11.  Only a [ModuleNotFoundError] (the class or a subclass of it) is
    translated: in interactive mode, when importing [pyvis] raises an
    exception whose class does not derive from [ModuleNotFoundError] (an
    [ImportError] for a name that is missing, say), [plot_nets] raises
    that very exception, not a [UserWarning]. *)
Theorem other_import_errors_are_not_translated nff fuel args h e r h1 G :
  Py.interactive args = true →
  Py.is_ModuleNotFoundError (Py.exn_class e) = false →
  nff args h = Py.Ret r h1 → h1 !! r = Some G →
  wf G → number_of_nodes G ≤ fuel →
  ∃ h2, Py.plot_nets nff (Py.Failed e) fuel args h = Py.Raise e h2.
Proof.
  intros Hint Hcls Hnff Hr Hwf Hle.
  destruct (plot_nets_reduced nff (Py.Failed e) fuel args h r h1 G)
    as (r' & h2 & G' & -> & _); [done..|].
  exists h2. unfold Py.render. by rewrite Hint, Hcls.
Qed.

Lemma other_import_errors_are_not_translated_witness :
  ∃ h2,
    Py.plot_nets Examples.builder
      (Py.Failed (Py.Exc Py.ImportError "cannot import name 'Network'")) 4
      Examples.args_interactive [Examples.chain] =
    Py.Raise (Py.Exc Py.ImportError "cannot import name 'Network'") h2.
Proof.
  apply (other_import_errors_are_not_translated Examples.builder 4
           Examples.args_interactive [Examples.chain]
           (Py.Exc Py.ImportError "cannot import name 'Network'")
           0 [Examples.chain] Examples.chain).
  - reflexivity.
  - reflexivity.
  - reflexivity.
  - reflexivity.
  - by_compute.
  - vm_compute. lia.
Defined.

(** X13.  On the store the loop computes what the loop on values
    computes: it returns a reference to the reduced graph, having
    allocated one object per pass, that is one per removed node. *)
Theorem store_loop_computes_the_reduced_graph ntr fuel h r G :
  h !! r = Some G → wf G → number_of_nodes G ≤ fuel →
  ∃ k G' r' h',
    reduction_loop fuel ntr G = Some (k, G') ∧
    Py.reduction_loop fuel ntr r h = Py.Ret r' h' ∧
    h' !! r' = Some G' ∧
    length h' = length h + k ∧
    k + number_of_nodes G' = number_of_nodes G.
Proof.
  intros Hr Hwf Hle.
  destruct (reduction_loop_terminates fuel ntr G Hwf Hle)
    as (k & G' & Hl & Hsum).
  exists k, G'. rewrite (reduction_loop_refines fuel ntr r h G Hr), Hl.
  eexists _, _. split_and!; [done|done| | |done].
  - destruct (snapshots_length _ _ _ _ _ Hl) as [Hlen Hlast].
    rewrite snapshots_head in Hlen, Hlast.
    destruct k as [|k]; simpl.
    + destruct (tail _); [|done]. simpl in Hlast. injection Hlast as <-.
      by rewrite app_nil_r.
    + destruct (tail (snapshots fuel ntr G)) as [|G1 l] eqn:Htl; [done|].
      rewrite last_cons_cons in Hlast. simpl in Hlen.
      rewrite lookup_app_r by lia.
      replace (length h + k - length h) with k by lia.
      rewrite last_lookup in Hlast. simpl in Hlast.
      by replace k with (length l) by lia.
  - destruct (snapshots_length _ _ _ _ _ Hl) as [Hlen _].
    rewrite snapshots_head in Hlen. simpl in Hlen.
    rewrite length_app. lia.
Qed.

Lemma store_loop_computes_the_reduced_graph_witness :
  ∃ k G' r' h',
    reduction_loop 4 ["waveguide"] Examples.chain = Some (k, G') ∧
    Py.reduction_loop 4 ["waveguide"] 0 [Examples.chain] = Py.Ret r' h' ∧
    h' !! r' = Some G' ∧
    length h' = length [Examples.chain] + k ∧
    k + number_of_nodes G' = number_of_nodes Examples.chain.
Proof.
  apply (store_loop_computes_the_reduced_graph ["waveguide"] 4
           [Examples.chain] 0 Examples.chain).
  - reflexivity.
  - by_compute.
  - vm_compute. lia.
Defined.

(** X15.  A filter that matches no label of the graph acts as no filter:
    the loop makes no pass, nothing is copied, and the renderer gets the
    builder's own object and the store as the builder left it. *)
Theorem unmatched_filter_renders_builder_graph
    nff pyvis fuel args h r h1 G :
  nff args h = Py.Ret r h1 → h1 !! r = Some G → wf G →
  matching (default [] (Py.nodes_to_reduce args)) G = [] →
  Py.plot_nets nff pyvis fuel args h =
    Py.render pyvis (Py.interactive args) r h1.
Proof.
  intros Hnff Hr Hwf Hnone.
  rewrite (plot_nets_run _ _ _ _ _ _ _ _ Hnff Hr).
  destruct (Py.truthy (Py.nodes_to_reduce args)); [|done].
  set (ntr := default [] (Py.nodes_to_reduce args)) in *.
  assert (Hany : any_removal ntr G = false).
  { destruct (any_removal ntr G) eqn:Hany; [|done].
    apply any_removal_selected in Hany as [n Hsel].
    destruct (selected_Some ntr G n) as (Hn & _ & Hm);
      [by apply wf_NoDup_nodes|done|].
    assert (Hin : n ∈ matching ntr G) by by apply list_elem_of_filter.
    rewrite Hnone in Hin. by apply elem_of_nil in Hin. }
  rewrite reduction_loop_stop by done. simpl.
  destruct fuel; simpl; rewrite Hany; by rewrite app_nil_r.
Qed.

Lemma unmatched_filter_renders_builder_graph_witness :
  Py.plot_nets Examples.builder Py.Imported 0 Examples.args_interactive
               [Examples.pads] =
    Py.render Py.Imported (Py.interactive Examples.args_interactive) 0
              [Examples.pads].
Proof.
  apply (unmatched_filter_renders_builder_graph Examples.builder Py.Imported
           0 Examples.args_interactive [Examples.pads] 0 [Examples.pads]
           Examples.pads).
  - reflexivity.
  - reflexivity.
  - by_compute.
  - reflexivity.
Defined.

End plot_nets_paths.
